(** * api-gateway: a shallow embedding of main.go and its specification

    The gateway of main.go is embedded function by function:
    - [LoadBalancer.Next]           (main.go, lines 265-284)
    - [TokenBucket.refill], [min]   (main.go, lines 345-357)
    - [RateLimiter.allowIP], [allowKey], [Allow] (main.go, lines 287-342)
    - [Gateway.checkBackendHealth]  (main.go, lines 377-405)
    - [Gateway.handleRequest]       (main.go, lines 178-240)

    Modelling conventions.
    - A [*Backend] is the slot of the backend in [lb.backends]: the slice is
      filled once by [NewGateway] with one fresh allocation per slot and is
      never changed afterwards, so slot and pointer determine each other.
    - Go's [int] cursor [lb.current] only ever holds [0] or a value
      [(idx + 1) % len(lb.backends)]; it is a [nat] here.
    - Every call of [time.Now()] is an explicit argument (a reading of the
      monotonic clock in nanoseconds).
    - [float64] is an interface ([Float64]): the code is embedded once, over
      the operations it uses, and instantiated with IEEE 754 binary64
      (rounding to nearest, ties to even).
    - A call that panics ends the handler that made it: main.go has no
      [recover]. *)

From Stdlib Require Import ZArith Lia Bool Ascii.
From Stdlib Require Import Floats.SpecFloat.
From stdpp Require Import gmap strings list pretty.

Local Open Scope nat_scope.

(** ** Data model (main.go, lines 27-55) *)

(** [Backend]: the URL is kept as its string; [Proxy] is the external
    reverse proxy and [mu] the mutex, neither carries data. *)
Record Backend := mkBackend {
  URL : string;
  Alive : bool
}.

Record LoadBalancer := mkLoadBalancer {
  backends : list Backend;
  current : nat
}.

(** ** LoadBalancer.Next (main.go, lines 265-284) *)

Module LB.

(** The [for i := 0; i < len(lb.backends); i++] loop, [fuel] being the
    number of iterations left.  The result is the slot [idx] the loop
    returns at, or [None] when the loop runs to its end. *)
Fixpoint scan (bs : list Backend) (start i fuel : nat) : option nat :=
  match fuel with
  | O => None
  | S fuel' =>
      let idx := (start + i) mod length bs in
      match bs !! idx with
      | Some b => if Alive b then Some idx else scan bs start (S i) fuel'
      | None => None
      end
  end.

Definition Next (lb : LoadBalancer) : option nat * LoadBalancer :=
  if length (backends lb) =? 0 then (None, lb)
  else
    let start := current lb in
    match scan (backends lb) start 0 (length (backends lb)) with
    | Some idx =>
        (Some idx,
         {| backends := backends lb;
            current := (idx + 1) mod length (backends lb) |})
    | None => (None, lb)
    end.

(** [m] consecutive calls of [Next]: the results in call order and the
    final state. *)
Fixpoint Next_n (m : nat) (lb : LoadBalancer) : list (option nat) * LoadBalancer :=
  match m with
  | O => ([], lb)
  | S m' =>
      let '(r, lb1) := Next lb in
      let '(rs, lb2) := Next_n m' lb1 in
      (r :: rs, lb2)
  end.

(** The liveness flag of the backend in slot [idx]. *)
Definition alive_at (bs : list Backend) (idx : nat) : bool :=
  match bs !! idx with
  | Some b => Alive b
  | None => false
  end.

(** How often slot [p] occurs among the selections [rs]. *)
Definition times_selected (p : nat) (rs : list (option nat)) : nat :=
  length (filter (λ r, r = Some p) rs).

(** How many [j] of [a, a+1, ..., a+n-1] have [j mod K = p]: how often
    slot [p] comes up while a cursor walks [n] steps round [K] slots. *)
Definition hits (K p a n : nat) : nat :=
  length (filter (λ j, j mod K = p) (seq a n)).

(** The slots a cursor started at [c] passes at its steps [s, ..., s+n-1]
    round [K] slots. *)
Definition cycle (K c s n : nat) : list (option nat) :=
  (λ j, Some ((c + j) mod K)) <$> seq s n.

(** The address of a selection. *)
Definition address_of (bs : list Backend) (r : option nat) : option string :=
  match r with
  | Some idx => URL <$> bs !! idx
  | None => None
  end.

End LB.

(** ** float64 and time (Go built-in types used by the token bucket) *)

(** The operations of [float64] that main.go uses: the conversion
    [float64(n)], the four arithmetic operations and the comparisons [<]
    and [>=]. *)
Class Float64 := {
  f64 : Type;
  f64_of_int : Z → f64;
  f64_add : f64 → f64 → f64;
  f64_sub : f64 → f64 → f64;
  f64_mul : f64 → f64 → f64;
  f64_div : f64 → f64 → f64;
  f64_lt : f64 → f64 → bool;
  f64_ge : f64 → f64 → bool
}.

(** [time.Time]: a reading of the monotonic clock, in nanoseconds.
    [time.Duration]: an [int64] count of nanoseconds. *)
Definition Time := Z.
Definition Duration := Z.

Definition Time_Sub (t u : Time) : Duration := (t - u)%Z.

(** Readings of the monotonic clock never go back: [ts], read after [t]. *)
Fixpoint monotone_from (t : Time) (ts : list Time) : Prop :=
  match ts with
  | [] => True
  | t' :: ts' => (t ≤ t')%Z ∧ monotone_from t' ts'
  end.

Definition Second : Duration := 1000000000%Z.
Definition Millisecond : Duration := 1000000%Z.

(** Go's [Duration.Milliseconds]: [int64(d) / 1e6], truncated division. *)
Definition Duration_Milliseconds (d : Duration) : Z := Z.quot d Millisecond.

Section TokenBucketCode.
Context `{F : Float64}.

(** Go's [Duration.Seconds]:
    [sec := d / Second; nsec := d % Second;
     return float64(sec) + float64(nsec)/1e9]. *)
Definition Duration_Seconds (d : Duration) : f64 :=
  f64_add (f64_of_int (Z.quot d Second))
          (f64_div (f64_of_int (Z.rem d Second)) (f64_of_int 1000000000)).

(** ** TokenBucket (main.go, lines 49-55 and 345-357) *)

Record TokenBucket := mkTokenBucket {
  tokens : f64;
  capacity : f64;
  refillRate : f64;
  lastRefill : Time
}.

(** [func min(a, b float64) float64] (main.go, lines 352-357). *)
Definition min (a b : f64) : f64 := if f64_lt a b then a else b.

(** [TokenBucket.refill] (main.go, lines 345-350); [now] is the reading of
    [time.Now()] on line 346. *)
Definition refill (tb : TokenBucket) (now : Time) : TokenBucket :=
  let elapsed := Duration_Seconds (Time_Sub now (lastRefill tb)) in
  {| tokens := min (capacity tb) (f64_add (tokens tb) (f64_mul elapsed (refillRate tb)));
     capacity := capacity tb;
     refillRate := refillRate tb;
     lastRefill := now |}.

(** [tb.tokens--]. *)
Definition decrement (tb : TokenBucket) : TokenBucket :=
  {| tokens := f64_sub (tokens tb) (f64_of_int 1);
     capacity := capacity tb;
     refillRate := refillRate tb;
     lastRefill := lastRefill tb |}.

(** The refill-then-check tail shared by [allowIP] (main.go, lines
    316-321) and [allowKey] (lines 336-341), which the specification calls
    [tryConsume]:
    [bucket.refill(); if bucket.tokens >= 1 { bucket.tokens--; return true };
     return false]. *)
Definition tryConsume (tb : TokenBucket) (now : Time) : bool * TokenBucket :=
  let tb1 := refill tb now in
  if f64_ge (tokens tb1) (f64_of_int 1) then (true, decrement tb1)
  else (false, tb1).

(** A sequence of [tryConsume] calls on one bucket, at the readings [ts]:
    the answers in call order and the bucket afterwards. *)
Fixpoint tryConsume_seq (tb : TokenBucket) (ts : list Time) : list bool * TokenBucket :=
  match ts with
  | [] => ([], tb)
  | now :: ts' =>
      let '(ok, tb1) := tryConsume tb now in
      let '(oks, tb2) := tryConsume_seq tb1 ts' in
      (ok :: oks, tb2)
  end.

(** The bucket literal of main.go, lines 307-312 (and 327-332); [now] is
    the reading of [time.Now()] inside the literal. *)
Definition newBucket (limit : Z) (now : Time) : TokenBucket :=
  {| tokens := f64_of_int limit;
     capacity := f64_of_int limit;
     refillRate := f64_div (f64_of_int limit) (f64_of_int 60);
     lastRefill := now |}.

(** ** RateLimiter (main.go, lines 42-47 and 287-342) *)

Record RateLimiter := mkRateLimiter {
  ipLimits : gmap string TokenBucket;
  keyLimits : gmap string TokenBucket
}.

Record Config := mkConfig {
  Port : Z;
  Backends : list string;
  RateLimitPerIP : Z;
  RateLimitPerKey : Z;
  HealthCheckInterval : Duration;
  APIKeys : gmap string bool
}.

(** The readings of [time.Now()] one call of [Allow] can take, in program
    order: in the bucket literal of [allowIP] (taken only when the bucket is
    created), in the [refill] of [allowIP], and the same two in
    [allowKey]. *)
Record Readings := mkReadings {
  t_ip_new : Time;
  t_ip : Time;
  t_key_new : Time;
  t_key : Time
}.

(** The bucket [allowIP] works on: the one in the map, or a new one. *)
Definition lookup_or_new (m : gmap string TokenBucket) (id : string)
    (limit : Z) (t_new : Time) : TokenBucket :=
  match m !! id with
  | Some bucket => bucket
  | None => newBucket limit t_new
  end.

(** [RateLimiter.allowIP] (main.go, lines 304-322).  The map holds
    pointers: the updates of the bucket are updates of the map's entry. *)
Definition allowIP (rl : RateLimiter) (ip : string) (limit : Z)
    (t_new t_now : Time) : bool * RateLimiter :=
  let bucket := lookup_or_new (ipLimits rl) ip limit t_new in
  let '(ok, bucket') := tryConsume bucket t_now in
  (ok, {| ipLimits := <[ip := bucket']> (ipLimits rl);
          keyLimits := keyLimits rl |}).

(** [RateLimiter.allowKey] (main.go, lines 324-342). *)
Definition allowKey (rl : RateLimiter) (key : string) (limit : Z)
    (t_new t_now : Time) : bool * RateLimiter :=
  let bucket := lookup_or_new (keyLimits rl) key limit t_new in
  let '(ok, bucket') := tryConsume bucket t_now in
  (ok, {| ipLimits := ipLimits rl;
          keyLimits := <[key := bucket']> (keyLimits rl) |}).

(** [RateLimiter.Allow] (main.go, lines 287-302). *)
Definition Allow (rl : RateLimiter) (ip key : string) (config : Config)
    (t : Readings) : bool * RateLimiter :=
  let '(ok_ip, rl1) := allowIP rl ip (RateLimitPerIP config) (t_ip_new t) (t_ip t) in
  if negb ok_ip then (false, rl1)
  else if String.eqb key EmptyString then (true, rl1)
  else
    let '(ok_key, rl2) := allowKey rl1 key (RateLimitPerKey config) (t_key_new t) (t_key t) in
    if negb ok_key then (false, rl2) else (true, rl2).

End TokenBucketCode.

Arguments TokenBucket : clear implicits.
Arguments TokenBucket {F}.
Arguments RateLimiter {F}.

(** ** Gateway.checkBackendHealth (main.go, lines 377-405) *)

(** What [client.Get(healthURL)] returned: whether [err != nil], and the
    status code of [resp] when [resp != nil]. *)
Record ProbeResult := mkProbe {
  probe_err : bool;
  probe_resp : option Z
}.

Definition StatusOK : Z := 200.
Definition StatusUnauthorized : Z := 401.
Definition StatusTooManyRequests : Z := 429.
Definition StatusServiceUnavailable : Z := 503.

(** The condition of line 389:
    [err != nil || (resp != nil && resp.StatusCode != http.StatusOK)]. *)
Definition probe_failed (p : ProbeResult) : bool :=
  probe_err p ||
  match probe_resp p with
  | Some sc => negb (sc =? StatusOK)%Z
  | None => false
  end.

(** The critical section of [checkBackendHealth] (lines 386-400) on the
    backend it is given: the backend afterwards, and the lines it hands to
    [log.Printf]. *)
Definition checkBackendHealth (b : Backend) (p : ProbeResult) : Backend * list string :=
  let wasAlive := Alive b in
  if probe_failed p then
    ({| URL := URL b; Alive := false |},
     if wasAlive then ["Backend " +:+ URL b +:+ " is now unhealthy"] else [])
  else
    ({| URL := URL b; Alive := true |},
     if negb wasAlive then ["Backend " +:+ URL b +:+ " is now healthy"] else []).

(** [checkBackendHealth] through the pointer: the backend of slot [idx] of
    the load balancer is the one updated. *)
Definition checkBackendHealth_at (lb : LoadBalancer) (idx : nat) (p : ProbeResult)
    : LoadBalancer * list string :=
  match backends lb !! idx with
  | Some b =>
      let '(b', out) := checkBackendHealth b p in
      ({| backends := <[idx := b']> (backends lb); current := current lb |}, out)
  | None => (lb, [])
  end.

(** ** Go library functions used by handleRequest *)

(** [strings.Split(s, sep)] for a separator of one byte. *)
Fixpoint Split (s : string) (sep : ascii) : list string :=
  match s with
  | EmptyString => [EmptyString]
  | String a s' =>
      if Ascii.eqb a sep then EmptyString :: Split s' sep
      else match Split s' sep with
           | w :: ws => String a w :: ws
           | [] => [String a EmptyString]
           end
  end.

(** [strings.Split(r.RemoteAddr, ":")[0]] (main.go, line 185).  [Split]
    never returns an empty slice, so the index expression cannot panic. *)
Definition clientIP_of (remoteAddr : string) : string :=
  match Split remoteAddr ":" with
  | w :: _ => w
  | [] => EmptyString
  end.

(** The digits [fmt] prints for an integer under a precision of 2: at least
    two digits, padded with zeros on the left. *)
Definition digits_prec2 (n : N) : string :=
  let d := pretty n in
  if String.length d <? 2 then "0" +:+ d else d.

(** [fmt.Sprintf("%.2f", n)] for [n] of type [int64].  The verb [f] does not
    apply to an integer; [fmt] then prints ["%!f(int64="], the operand under
    the verb [v] with the flags of the directive, and [")"]. *)
Definition Sprintf_2f_int64 (n : Z) : string :=
  "%!f(int64=" +:+ (if (n <? 0)%Z then "-" else EmptyString) +:+
  digits_prec2 (Z.abs_N n) +:+ ")".

(** A decimal number: an optional sign, digits, and optionally a point
    followed by digits. *)
Definition is_digit (a : ascii) : bool :=
  let n := nat_of_ascii a in (48 <=? n) && (n <=? 57).

Fixpoint all_digits (s : string) : bool :=
  match s with
  | EmptyString => true
  | String a s' => is_digit a && all_digits s'
  end.

Fixpoint digits_then_fraction (s : string) : bool :=
  match s with
  | EmptyString => true
  | String a s' =>
      if Ascii.eqb a "." then negb (String.eqb s' EmptyString) && all_digits s'
      else is_digit a && digits_then_fraction s'
  end.

Definition is_decimal_number (s : string) : bool :=
  match s with
  | EmptyString => false
  | String a s' =>
      if Ascii.eqb a "-" || Ascii.eqb a "+"
      then match s' with
           | EmptyString => false
           | String b _ => is_digit b && digits_then_fraction s'
           end
      else is_digit a && digits_then_fraction s
  end.

(** ** Gateway.handleRequest (main.go, lines 178-262) *)

(** The parts of [*http.Request] the handler reads; [X_API_Key] is
    [r.Header.Get("X-API-Key")], empty when the header is absent. *)
Module Request.
Record t := mk {
  Method : string;
  Path : string;
  RemoteAddr : string;
  X_API_Key : string
}.
End Request.

(** [LogEntry] (main.go, lines 63-74). *)
Module LogEntry.
Record t := mk {
  Timestamp : string;
  Method : string;
  Path : string;
  ClientIP : string;
  APIKey : string;
  StatusCode : Z;
  ResponseTime : string;
  Backend : string;
  Error : string
}.

(** Assignments to one field of a [LogEntry] variable. *)
Definition set_APIKey (v : string) (e : t) : t :=
  mk (Timestamp e) (Method e) (Path e) (ClientIP e) v (StatusCode e)
     (ResponseTime e) (Backend e) (Error e).
Definition set_StatusCode (v : Z) (e : t) : t :=
  mk (Timestamp e) (Method e) (Path e) (ClientIP e) (APIKey e) v
     (ResponseTime e) (Backend e) (Error e).
Definition set_ResponseTime (v : string) (e : t) : t :=
  mk (Timestamp e) (Method e) (Path e) (ClientIP e) (APIKey e) (StatusCode e)
     v (Backend e) (Error e).
Definition set_Backend (v : string) (e : t) : t :=
  mk (Timestamp e) (Method e) (Path e) (ClientIP e) (APIKey e) (StatusCode e)
     (ResponseTime e) v (Error e).
Definition set_Error (v : string) (e : t) : t :=
  mk (Timestamp e) (Method e) (Path e) (ClientIP e) (APIKey e) (StatusCode e)
     (ResponseTime e) (Backend e) v.
End LogEntry.

(** [responseWriter] (main.go, lines 242-262) and the calls the reverse
    proxy makes on it. *)
Record responseWriter := mkResponseWriter {
  statusCode : Z;
  written : bool
}.

Inductive WriterCall :=
| CallWriteHeader (sc : Z)
| CallWrite.

Definition WriteHeader (w : responseWriter) (sc : Z) : responseWriter :=
  if negb (written w) then {| statusCode := sc; written := true |} else w.

Definition Write (w : responseWriter) : responseWriter :=
  if negb (written w) then {| statusCode := statusCode w; written := true |} else w.

Definition writer_step (w : responseWriter) (c : WriterCall) : responseWriter :=
  match c with
  | CallWriteHeader sc => WriteHeader w sc
  | CallWrite => Write w
  end.

(** The collaborators outside main.go: the reverse proxy of a backend and
    [time.Time.Format(time.RFC3339)].  [ServeHTTP] gives the calls that
    [backend.Proxy.ServeHTTP(wrapped, r)] makes on [wrapped]; [Aborts] tells
    whether the call then panics instead of returning:
    [httputil.ReverseProxy] panics with [http.ErrAbortHandler] when the copy
    of the backend's response body fails after the header was sent. *)
Record Env := mkEnv {
  ServeHTTP : nat → Request.t → list WriterCall;
  Aborts : nat → Request.t → bool;
  RFC3339 : Time → string
}.

(** How a call ends: it returns a value, or it panics and the stack
    unwinds.  main.go has no [recover]: a panic below [handleRequest] ends
    [handleRequest] at the call. *)
Inductive Outcome (A : Type) :=
| Returned (a : A)
| Panicked.

Arguments Returned {A} a.
Arguments Panicked {A}.

(** The readings of [time.Now()] of one request: line 184, those of
    [Allow], and the one inside [time.Since] on line 237. *)
Record Clock := mkClock {
  t_start : Time;
  t_allow : Readings;
  t_end : Time
}.

(** What the handler does to its collaborators, in program order. *)
Inductive Event :=
| EvHandleHealth
| EvLog (e : LogEntry.t)
| EvAllow (ip key : string)
| EvNext
| EvServeHTTP (slot : nat)
| EvHttpError (msg : string) (code : Z).

Section GatewayCode.
Context `{F : Float64}.

Record Gateway := mkGateway {
  config : Config;
  lb : LoadBalancer;
  rateLimiter : RateLimiter;
  logger : list LogEntry.t
}.

(** The handler as a computation on the gateway that records its calls:
    how it ends, the gateway it leaves and the calls it made. *)
Definition Handler (A : Type) : Type := Gateway → Outcome A * Gateway * list Event.

Definition ret {A} (a : A) : Handler A := λ g, (Returned a, g, []).

(** Sequencing: what follows a call runs only if the call returns. *)
Definition bind {A B} (m : Handler A) (k : A → Handler B) : Handler B :=
  λ g, let '(o, g1, tr1) := m g in
       match o with
       | Returned a =>
           let '(b, g2, tr2) := k a g1 in
           (b, g2, tr1 ++ tr2)
       | Panicked => (Panicked, g1, tr1)
       end.

Notation "'let*' x := m 'in' k" := (bind m (λ x, k))
  (at level 10, x name, m at level 100, k at level 200).
Notation "'run' m 'then' k" := (bind m (λ _, k))
  (at level 10, m at level 100, k at level 200).

(** [g.handleHealth(w, r)]: it reads the liveness flags and writes the
    summary; the gateway is unchanged. *)
Definition call_handleHealth : Handler unit :=
  λ g, (Returned tt, g, [EvHandleHealth]).

(** [g.logger.Log(entry)] (main.go, lines 408-414): one line appended. *)
Definition call_Log (e : LogEntry.t) : Handler unit :=
  λ g, (Returned tt,
        {| config := config g; lb := lb g; rateLimiter := rateLimiter g;
           logger := logger g ++ [e] |},
        [EvLog e]).

(** [g.rateLimiter.Allow(clientIP, apiKey, g.config)]. *)
Definition call_Allow (ip key : string) (t : Readings) : Handler bool :=
  λ g, let '(ok, rl') := Allow (rateLimiter g) ip key (config g) t in
       (Returned ok,
        {| config := config g; lb := lb g; rateLimiter := rl';
           logger := logger g |},
        [EvAllow ip key]).

(** [g.lb.Next()]. *)
Definition call_Next : Handler (option nat) :=
  λ g, let '(r, lb') := LB.Next (lb g) in
       (Returned r,
        {| config := config g; lb := lb'; rateLimiter := rateLimiter g;
           logger := logger g |},
        [EvNext]).

(** [backend.Proxy.ServeHTTP(wrapped, r)] with
    [wrapped := &responseWriter{ResponseWriter: w, statusCode: http.StatusOK}]:
    the proxy makes its calls on [wrapped], then returns or panics. *)
Definition call_ServeHTTP (env : Env) (slot : nat) (r : Request.t)
    : Handler responseWriter :=
  λ g, (if Aborts env slot r then Panicked
        else Returned (fold_left writer_step (ServeHTTP env slot r)
                         {| statusCode := StatusOK; written := false |}),
        g, [EvServeHTTP slot]).

(** [http.Error(w, msg, code)]. *)
Definition call_httpError (msg : string) (code : Z) : Handler unit :=
  λ g, (Returned tt, g, [EvHttpError msg code]).

(** [g.config.APIKeys[apiKey]]: false for a key that is not in the map. *)
Definition read_APIKeys (apiKey : string) : Handler bool :=
  λ g, (Returned (default false (APIKeys (config g) !! apiKey)), g, []).

(** [backend.URL.String()] of the backend in slot [slot]. *)
Definition read_URL (slot : nat) : Handler string :=
  λ g, (Returned (match backends (lb g) !! slot with
                   | Some b => URL b
                   | None => EmptyString
                   end), g, []).

Definition handleRequest (env : Env) (clk : Clock) (r : Request.t) : Handler unit :=
  if String.eqb (Request.Path r) "/health" then call_handleHealth
  else
    let startTime := t_start clk in
    let clientIP := clientIP_of (Request.RemoteAddr r) in
    let logEntry :=
      {| LogEntry.Timestamp := RFC3339 env startTime;
         LogEntry.Method := Request.Method r;
         LogEntry.Path := Request.Path r;
         LogEntry.ClientIP := clientIP;
         LogEntry.APIKey := EmptyString;
         LogEntry.StatusCode := 0;
         LogEntry.ResponseTime := EmptyString;
         LogEntry.Backend := EmptyString;
         LogEntry.Error := EmptyString |} in
    let apiKey := Request.X_API_Key r in
    let logEntry :=
      if negb (String.eqb apiKey EmptyString) then LogEntry.set_APIKey apiKey logEntry
      else logEntry in
    let* known := read_APIKeys apiKey in
    if negb (String.eqb apiKey EmptyString) && negb known then
      let logEntry := LogEntry.set_StatusCode StatusUnauthorized logEntry in
      let logEntry := LogEntry.set_Error "invalid API key" logEntry in
      run call_Log logEntry then
      call_httpError "Unauthorized: invalid API key" StatusUnauthorized
    else
      let* ok := call_Allow clientIP apiKey (t_allow clk) in
      if negb ok then
        let logEntry := LogEntry.set_StatusCode StatusTooManyRequests logEntry in
        let logEntry := LogEntry.set_Error "rate limit exceeded" logEntry in
        run call_Log logEntry then
        call_httpError "Rate limit exceeded" StatusTooManyRequests
      else
        let* backend := call_Next in
        match backend with
        | None =>
            let logEntry := LogEntry.set_StatusCode StatusServiceUnavailable logEntry in
            let logEntry := LogEntry.set_Error "no healthy backends available" logEntry in
            run call_Log logEntry then
            call_httpError "Service unavailable" StatusServiceUnavailable
        | Some slot =>
            let* url := read_URL slot in
            let logEntry := LogEntry.set_Backend url logEntry in
            let* wrapped := call_ServeHTTP env slot r in
            let logEntry := LogEntry.set_StatusCode (statusCode wrapped) logEntry in
            let logEntry :=
              LogEntry.set_ResponseTime
                (Sprintf_2f_int64
                   (Duration_Milliseconds (Time_Sub (t_end clk) startTime)))
                logEntry in
            call_Log logEntry
        end.

End GatewayCode.

Arguments Gateway {F}.

(** ** float64 as IEEE 754 binary64 *)

(** IEEE 754 binary64 with rounding to nearest, ties to even. *)
Definition binary64_of_int (n : Z) : spec_float :=
  binary_normalize 53 1024 n 0 false.

Definition binary64_Float64 : Float64 :=
  {| f64 := spec_float;
     f64_of_int := binary64_of_int;
     f64_add := SFadd 53 1024;
     f64_sub := SFsub 53 1024;
     f64_mul := SFmul 53 1024;
     f64_div := SFdiv 53 1024;
     f64_lt := SFltb;
     f64_ge := λ a b, SFleb b a |}.

(** A probe that succeeds in the words of the specification: no error and
    a status of the class 2xx. *)
Definition spec_probe_succeeds (p : ProbeResult) : bool :=
  negb (probe_err p) &&
  match probe_resp p with
  | Some sc => (200 <=? sc)%Z && (sc <? 300)%Z
  | None => false
  end.

(** A probe that returned no error and, when there is a response, the
    status 200. *)
Definition probe_ok_200 (p : ProbeResult) : Prop :=
  probe_err p = false ∧ ∀ sc, probe_resp p = Some sc → sc = StatusOK.

(** The byte [c] does not occur in [s]. *)
Fixpoint no_byte (c : ascii) (s : string) : bool :=
  match s with
  | EmptyString => true
  | String a s' => negb (Ascii.eqb a c) && no_byte c s'
  end.

(** Reading a trace: the entries handed to the logger, and whether the
    rate limiter, the load balancer or a reverse proxy was called. *)
Definition logged (tr : list Event) : list LogEntry.t :=
  omap (λ ev, match ev with EvLog e => Some e | _ => None end) tr.

Definition calls_Allow (tr : list Event) : bool :=
  existsb (λ ev, match ev with EvAllow _ _ => true | _ => false end) tr.

Definition calls_Next (tr : list Event) : bool :=
  existsb (λ ev, match ev with EvNext => true | _ => false end) tr.

Definition calls_ServeHTTP (tr : list Event) : bool :=
  existsb (λ ev, match ev with EvServeHTTP _ => true | _ => false end) tr.

(** The condition of lines 197-199 under which the request is answered
    with status 401: a key is present and [g.config.APIKeys[apiKey]] is
    false. *)
Definition unauthorized (config : Config) (r : Request.t) : bool :=
  negb (String.eqb (Request.X_API_Key r) EmptyString) &&
  negb (default false (APIKeys config !! Request.X_API_Key r)).

(** ** Locks and shared state (the [mu] fields and what they are held for) *)

Module Sync.

(** The mutexes of main.go: [lb.mu] (line 31), one [backend.mu] per backend
    (line 39), [rl.mu] (line 46). *)
Inductive Mutex :=
| lb_mu
| backend_mu (slot : nat)
| rl_mu.

(** The shared state they are about: the cursor [lb.current], the flag
    [Alive] of each backend, the two maps of the rate limiter and the
    bucket of each identity. *)
Inductive Loc :=
| loc_current
| loc_Alive (slot : nat)
| loc_ipLimits
| loc_keyLimits
| loc_ipBucket (ip : string)
| loc_keyBucket (key : string).

(** What a call does to them, in program order. *)
Inductive Op :=
| Lock (m : Mutex)
| Unlock (m : Mutex)
| Read (l : Loc)
| Write (l : Loc).

#[global] Instance Mutex_eq_dec : EqDecision Mutex.
Proof. solve_decision. Defined.

#[global] Instance Loc_eq_dec : EqDecision Loc.
Proof. solve_decision. Defined.

(** The loop of [Next] (lines 275-281): every iteration reads
    [lb.backends[idx].Alive]; the one that finds it true writes
    [lb.current] and returns. *)
Fixpoint scan_ops (bs : list Backend) (start i fuel : nat) : list Op :=
  match fuel with
  | O => []
  | S fuel' =>
      let idx := (start + i) mod length bs in
      match bs !! idx with
      | Some b =>
          Read (loc_Alive idx) ::
          (if Alive b then [Write loc_current]
           else scan_ops bs start (S i) fuel')
      | None => []
      end
  end.

(** [LoadBalancer.Next] (lines 265-284): [lb.mu.Lock()], the deferred
    [lb.mu.Unlock()], and in between the read of [lb.current] on line 274
    and the loop. *)
Definition Next_ops (lb : LoadBalancer) : list Op :=
  [Lock lb_mu] ++
  (if length (backends lb) =? 0 then []
   else Read loc_current ::
        scan_ops (backends lb) (current lb) 0 (length (backends lb))) ++
  [Unlock lb_mu].

(** [handleHealth] (lines 157-164): the flags are counted under [lb.mu]. *)
Definition handleHealth_ops (lb : LoadBalancer) : list Op :=
  [Lock lb_mu] ++
  ((λ idx, Read (loc_Alive idx)) <$> seq 0 (length (backends lb))) ++
  [Unlock lb_mu].

(** [checkBackendHealth] on the backend of slot [slot] (lines 386-400):
    under [backend.mu], [wasAlive := backend.Alive] and the assignment to
    [backend.Alive]. *)
Definition checkBackendHealth_ops (slot : nat) : list Op :=
  [Lock (backend_mu slot);
   Read (loc_Alive slot);
   Write (loc_Alive slot);
   Unlock (backend_mu slot)].

Section AllowOps.
Context `{F : Float64}.

(** [allowIP] (lines 304-322): the lookup in the map, the insertion of a
    new bucket, [refill] (reads and writes the bucket), the comparison and,
    when it allows, [bucket.tokens--]. *)
Definition allowIP_ops (rl : RateLimiter) (ip : string) (limit : Z)
    (t_new t_now : Time) : list Op :=
  [Read loc_ipLimits] ++
  (match ipLimits rl !! ip with Some _ => [] | None => [Write loc_ipLimits] end) ++
  [Read (loc_ipBucket ip); Write (loc_ipBucket ip); Read (loc_ipBucket ip)] ++
  (if (allowIP rl ip limit t_new t_now).1 then [Write (loc_ipBucket ip)] else []).

(** [allowKey] (lines 324-342). *)
Definition allowKey_ops (rl : RateLimiter) (key : string) (limit : Z)
    (t_new t_now : Time) : list Op :=
  [Read loc_keyLimits] ++
  (match keyLimits rl !! key with Some _ => [] | None => [Write loc_keyLimits] end) ++
  [Read (loc_keyBucket key); Write (loc_keyBucket key); Read (loc_keyBucket key)] ++
  (if (allowKey rl key limit t_new t_now).1 then [Write (loc_keyBucket key)] else []).

(** [Allow] (lines 287-302): [rl.mu.Lock()], the deferred [rl.mu.Unlock()],
    and in between [allowIP] and, when that allows and a key is given,
    [allowKey]. *)
Definition Allow_ops (rl : RateLimiter) (ip key : string) (config : Config)
    (t : Readings) : list Op :=
  let r := allowIP rl ip (RateLimitPerIP config) (t_ip_new t) (t_ip t) in
  [Lock rl_mu] ++
  (allowIP_ops rl ip (RateLimitPerIP config) (t_ip_new t) (t_ip t) ++
   (if r.1 && negb (String.eqb key EmptyString)
    then allowKey_ops r.2 key (RateLimitPerKey config) (t_key_new t) (t_key t)
    else [])) ++
  [Unlock rl_mu].

End AllowOps.

(** The mutexes held at each read and write of a sequence of operations
    that starts with the mutexes [held]. *)
Fixpoint locksets (held : list Mutex) (ops : list Op) : list (Op * list Mutex) :=
  match ops with
  | [] => []
  | Lock m :: ops' => locksets (m :: held) ops'
  | Unlock m :: ops' => locksets (remove Mutex_eq_dec m held) ops'
  | (Read _ as a) :: ops' | (Write _ as a) :: ops' => (a, held) :: locksets held ops'
  end.

Definition loc_of (a : Op) : option Loc :=
  match a with
  | Read l | Write l => Some l
  | Lock _ | Unlock _ => None
  end.

Definition is_access (a : Op) : bool :=
  match a with
  | Read _ | Write _ => true
  | Lock _ | Unlock _ => false
  end.

(** Every read and write of [l] in [ops] is made with [m] held. *)
Definition guarded_by (m : Mutex) (l : Loc) (ops : list Op) : Prop :=
  ∀ a held, (a, held) ∈ locksets [] ops → loc_of a = Some l → m ∈ held.

(** The mutexes held while [ops] reads or writes [l]. *)
Definition held_for (l : Loc) (ops : list Op) : list (list Mutex) :=
  omap (λ ah : Op * list Mutex,
          if decide (loc_of ah.1 = Some l) then Some ah.2 else None)
       (locksets [] ops).

(** Two calls contend when some mutex is held by both, by the one while it
    is at [l1] and by the other while it is at [l2]. *)
Definition contend (l1 : Loc) (ops1 : list Op) (l2 : Loc) (ops2 : list Op) : Prop :=
  ∃ m h1 h2, h1 ∈ held_for l1 ops1 ∧ h2 ∈ held_for l2 ops2 ∧ m ∈ h1 ∧ m ∈ h2.

End Sync.

(** ** A small deployment, for the examples *)

Module Example.

(** The gateway [runGateway] builds for
    [-backends=http://localhost:8081,http://localhost:8082] and the
    default limits (main.go, lines 440-457), before any request. *)
Definition cfg : Config :=
  {| Port := 8080%Z;
     Backends := ["http://localhost:8081"; "http://localhost:8082"];
     RateLimitPerIP := 100%Z;
     RateLimitPerKey := 1000%Z;
     HealthCheckInterval := (10 * Second)%Z;
     APIKeys := <["key-test-1" := true]>
                  (<["key-test-2" := true]> (<["key-admin" := true]> ∅)) |}.

Definition gw : @Gateway binary64_Float64 :=
  {| config := cfg;
     lb := {| backends := (λ u, mkBackend u true) <$> Backends cfg;
              current := 0 |};
     rateLimiter := {| ipLimits := ∅; keyLimits := ∅ |};
     logger := [] |}.

(** Backends that answer every request with status 200 and a body. *)
Definition env : Env :=
  {| ServeHTTP := λ _ _, [CallWriteHeader 200%Z; CallWrite];
     Aborts := λ _ _, false;
     RFC3339 := λ _, "2026-01-01T00:00:00Z" |}.

(** The same deployment when the backends close the connection in the
    middle of the body: the proxy has sent the header and a part of the
    body, then panics. *)
Definition env_aborting : Env :=
  {| ServeHTTP := λ _ _, [CallWriteHeader 200%Z; CallWrite];
     Aborts := λ _ _, true;
     RFC3339 := λ _, "2026-01-01T00:00:00Z" |}.

(** A request received at [t] (in nanoseconds) and answered 5.3 ms later. *)
Definition clock (t : Time) : Clock :=
  {| t_start := t;
     t_allow := {| t_ip_new := t + 1000; t_ip := t + 2000;
                   t_key_new := t + 3000; t_key := t + 4000 |};
     t_end := t + 5300000 |}%Z.

Definition request (path remoteAddr key : string) : Request.t :=
  {| Request.Method := "GET"; Request.Path := path;
     Request.RemoteAddr := remoteAddr; Request.X_API_Key := key |}.

End Example.

(** ** The rest of main.go *)

(** [Gateway.handleHealth] (main.go, lines 151-175): what it writes to the
    client.  The loop of lines 158-163 counts the live backends from the
    left. *)
Definition StatusMethodNotAllowed : Z := 405.

Inductive HealthReply :=
| ReplyError (msg : string) (code : Z)
| ReplySummary (status : string) (healthy_backends total_backends : nat)
               (timestamp : string).

Definition count_healthy (bs : list Backend) : nat :=
  fold_left (λ healthy b, if Alive b then S healthy else healthy) bs 0.

Definition handleHealth (env : Env) (now : Time) (method : string)
    (lb : LoadBalancer) : HealthReply :=
  if negb (String.eqb method "GET")
  then ReplyError "Method not allowed" StatusMethodNotAllowed
  else ReplySummary "ok" (count_healthy (backends lb))
                    (length (backends lb)) (RFC3339 env now).

(** One tick of [healthCheckLoop] (main.go, lines 364-373): a check of
    every backend is started; each runs its critical section under the
    mutex of its own backend, in some order [order] of the slots.
    [probe idx] is what [client.Get] returned for the backend of slot
    [idx]. *)
Fixpoint run_checks (probe : nat → ProbeResult) (order : list nat)
    (lb : LoadBalancer) : LoadBalancer * list string :=
  match order with
  | [] => (lb, [])
  | idx :: rest =>
      let '(lb1, out1) := checkBackendHealth_at lb idx (probe idx) in
      let '(lb2, out2) := run_checks probe rest lb1 in
      (lb2, out1 ++ out2)
  end.

(** [NewGateway] (main.go, lines 86-130).  [parse u] is [url.Parse(u)]:
    the parsed URL as [URL.String()] prints it, or [None] for an error.
    [log_file] is what [os.OpenFile("gateway.log",
    os.O_CREATE|os.O_WRONLY|os.O_APPEND, 0644)] finds: [None] when the file
    cannot be opened, otherwise the entries the file holds already (none
    when it is created); the file is opened for appending and is not
    truncated. *)
Inductive NewGatewayError :=
| InvalidBackendURL (backendURL : string)
| OpenLogFailed.

(** The loop of lines 92-104, [acc] being [lb.backends] so far. *)
Fixpoint init_backends (parse : string → option string) (urls : list string)
    (acc : list Backend) : list Backend + string :=
  match urls with
  | [] => inl acc
  | backendURL :: rest =>
      match parse backendURL with
      | None => inr backendURL
      | Some parsedURL =>
          init_backends parse rest (acc ++ [{| URL := parsedURL; Alive := true |}])
      end
  end.

Section NewGatewayCode.
Context `{F : Float64}.

Definition NewGateway (parse : string → option string)
    (log_file : option (list LogEntry.t)) (cfg : Config)
    : Gateway + NewGatewayError :=
  match init_backends parse (Backends cfg) [] with
  | inr backendURL => inr (InvalidBackendURL backendURL)
  | inl bs =>
      match log_file with
      | Some held =>
          inl {| config := cfg;
                 lb := {| backends := bs; current := 0 |};
                 rateLimiter := {| ipLimits := ∅; keyLimits := ∅ |};
                 logger := held |}
      | None => inr OpenLogFailed
      end
  end.

(** Requests handled one after the other, each with its clock: the
    gateway afterwards and the trace of all of them.  A request whose
    handler panics ends there (net/http recovers the panic of a handler and
    closes the connection); the gateway serves the next one. *)
Fixpoint serve (env : Env) (reqs : list (Clock * Request.t)) (g : Gateway)
    : Gateway * list Event :=
  match reqs with
  | [] => (g, [])
  | (clk, r) :: rest =>
      let '(_, g1, tr1) := handleRequest env clk r g in
      let '(g2, tr2) := serve env rest g1 in
      (g2, tr1 ++ tr2)
  end.

End NewGatewayCode.

(** The configuration [runGateway] builds (main.go, lines 440-457). *)
Definition runGateway_config (port : Z) (backendsStr : string)
    (rateLimit keyRateLimit : Z) : Config :=
  {| Port := port;
     Backends := Split backendsStr ",";
     RateLimitPerIP := rateLimit;
     RateLimitPerKey := keyRateLimit;
     HealthCheckInterval := (10 * Second)%Z;
     APIKeys := <["key-admin" := true]>
                  (<["key-test-2" := true]> (<["key-test-1" := true]> ∅)) |}.

(** How often the byte [c] occurs in [s]. *)
Fixpoint count_byte (c : ascii) (s : string) : nat :=
  match s with
  | EmptyString => 0
  | String a s' => (if Ascii.eqb a c then 1 else 0) + count_byte c s'
  end.

(** The requests of a list that are not for [/health]. *)
Definition proxied_paths (reqs : list (Clock * Request.t)) : list string :=
  Request.Path <$>
    filter (λ r, Request.Path r ≠ "/health") (snd <$> reqs).

(** Whether a call returned. *)
Definition returned {A} (o : Outcome A) : bool :=
  match o with
  | Returned _ => true
  | Panicked => false
  end.

(** Of the requests [reqs], served one after the other from [g], those
    whose handler returns. *)
Fixpoint completed `{F : Float64} (env : Env) (reqs : list (Clock * Request.t))
    (g : Gateway) : list (Clock * Request.t) :=
  match reqs with
  | [] => []
  | (clk, r) :: rest =>
      let '(o, g1, _) := handleRequest env clk r g in
      (if returned o then [(clk, r)] else []) ++ completed env rest g1
  end.

(** The backend of slot [i] after a check with the probe [probe i]. *)
Definition probed (probe : nat → ProbeResult) (i : nat) (b : Backend) : Backend :=
  {| URL := URL b; Alive := negb (probe_failed (probe i)) |}.

(** The log entry of a request as lines 188-198 leave it, and as the three
    error exits complete it. *)
Definition base_entry (env : Env) (clk : Clock) (r : Request.t) : LogEntry.t :=
  let e := {| LogEntry.Timestamp := RFC3339 env (t_start clk);
              LogEntry.Method := Request.Method r;
              LogEntry.Path := Request.Path r;
              LogEntry.ClientIP := clientIP_of (Request.RemoteAddr r);
              LogEntry.APIKey := EmptyString;
              LogEntry.StatusCode := 0;
              LogEntry.ResponseTime := EmptyString;
              LogEntry.Backend := EmptyString;
              LogEntry.Error := EmptyString |} in
  if negb (String.eqb (Request.X_API_Key r) EmptyString)
  then LogEntry.set_APIKey (Request.X_API_Key r) e
  else e.

Definition error_entry (env : Env) (clk : Clock) (r : Request.t)
    (code : Z) (reason : string) : LogEntry.t :=
  LogEntry.set_Error reason (LogEntry.set_StatusCode code (base_entry env clk r)).

(** [strings.Join(pieces, sep)] for a separator of one byte. *)
Fixpoint Join (pieces : list string) (sep : ascii) : string :=
  match pieces with
  | [] => EmptyString
  | [w] => w
  | w :: ws => w +:+ String sep (Join ws sep)
  end.

(** The slots in the order in which [Next] scans them from the cursor [c],
    and the live ones among them. *)
Definition scan_order (bs : list Backend) (c : nat) : list nat :=
  (λ j, (c + j) mod length bs) <$> seq 0 (length bs).

Definition live_order (lb : LoadBalancer) : list nat :=
  filter (λ idx, LB.alive_at (backends lb) idx = true)
         (scan_order (backends lb) (current lb)).

(** * Properties *)

(** ** The load balancer *)

Section LoadBalancerFacts.
Import LB.

Lemma alive_at_lookup (bs : list Backend) (idx : nat) :
  alive_at bs idx = true ↔ ∃ b, bs !! idx = Some b ∧ Alive b = true.
Proof.
  unfold alive_at. destruct (bs !! idx) as [b|]; split.
  - intros H. by exists b.
  - by intros (b' & [= <-] & H).
  - discriminate.
  - by intros (b' & ? & _).
Qed.

(** A run of the loop that returns stopped at the first live slot. *)
Lemma scan_Some (bs : list Backend) (start i fuel idx : nat) :
  scan bs start i fuel = Some idx →
  ∃ k, i ≤ k < i + fuel ∧ idx = (start + k) mod length bs ∧
       alive_at bs idx = true ∧
       ∀ j, i ≤ j < k → alive_at bs ((start + j) mod length bs) = false.
Proof.
  revert i. induction fuel as [|fuel IH]; intros i; simpl; [discriminate|].
  destruct (bs !! ((start + i) mod length bs)) as [b|] eqn:Hb; [|discriminate].
  destruct (Alive b) eqn:Ha.
  - intros [= <-]. exists i. repeat split; [lia..| |intros; lia].
    unfold alive_at. by rewrite Hb.
  - intros Hs. destruct (IH _ Hs) as (k & Hk & -> & Hlive & Hdead).
    exists k. repeat split; [lia..|done|].
    intros j Hj. destruct (decide (j = i)) as [->|].
    + unfold alive_at. by rewrite Hb.
    + apply Hdead. lia.
Qed.

(** A run of the loop that reaches its end saw dead slots only. *)
Lemma scan_None (bs : list Backend) (start i fuel : nat) :
  bs ≠ [] →
  scan bs start i fuel = None →
  ∀ j, i ≤ j < i + fuel → alive_at bs ((start + j) mod length bs) = false.
Proof.
  intros Hne. revert i. induction fuel as [|fuel IH]; intros i; simpl; [lia|].
  destruct (bs !! ((start + i) mod length bs)) as [b|] eqn:Hb.
  - destruct (Alive b) eqn:Ha; [discriminate|].
    intros Hs j Hj. destruct (decide (j = i)) as [->|].
    + unfold alive_at. by rewrite Hb.
    + apply (IH _ Hs). lia.
  - apply lookup_ge_None in Hb.
    assert (length bs ≠ 0) by (destruct bs; simpl; [done|lia]).
    pose proof (Nat.mod_upper_bound (start + i) (length bs)). lia.
Qed.

(** The loop is decided by the first live offset. *)
Lemma scan_first_live (bs : list Backend) (start fuel k : nat) :
  bs ≠ [] → k < fuel →
  alive_at bs ((start + k) mod length bs) = true →
  (∀ j, j < k → alive_at bs ((start + j) mod length bs) = false) →
  scan bs start 0 fuel = Some ((start + k) mod length bs).
Proof.
  intros Hne Hk Hlive Hdead.
  destruct (scan bs start 0 fuel) as [idx|] eqn:Hs.
  - apply scan_Some in Hs as (k' & Hk' & -> & Hlive' & Hdead').
    destruct (Nat.lt_trichotomy k k') as [Hlt|[->|Hgt]]; [|done|].
    + rewrite Hdead' in Hlive; [done|lia].
    + rewrite Hdead in Hlive'; [done|lia].
  - rewrite (scan_None _ _ _ _ Hne Hs k) in Hlive; [done|lia].
Qed.

Lemma scan_all_dead (bs : list Backend) (start fuel : nat) :
  (∀ j, j < fuel → alive_at bs ((start + j) mod length bs) = false) →
  scan bs start 0 fuel = None.
Proof.
  intros Hdead. destruct (scan bs start 0 fuel) as [idx|] eqn:Hs; [|done].
  apply scan_Some in Hs as (k & Hk & -> & Hlive & _).
  rewrite Hdead in Hlive; [done|lia].
Qed.

Lemma length_pos (bs : list Backend) : bs ≠ [] → length bs ≠ 0.
Proof. destruct bs; simpl; [done|lia]. Qed.

Lemma Next_unfold (lb : LoadBalancer) :
  backends lb ≠ [] →
  Next lb =
    match scan (backends lb) (current lb) 0 (length (backends lb)) with
    | Some idx =>
        (Some idx,
         {| backends := backends lb;
            current := (idx + 1) mod length (backends lb) |})
    | None => (None, lb)
    end.
Proof.
  intros Hne%length_pos. unfold Next.
  destruct (Nat.eqb_spec (length (backends lb)) 0); [done|done].
Qed.

(** With every backend dead, [Next] returns none and changes nothing. *)
Lemma Next_all_dead (lb : LoadBalancer) :
  (∀ b, b ∈ backends lb → Alive b = false) → Next lb = (None, lb).
Proof.
  intros Hdead. unfold Next.
  destruct (length (backends lb) =? 0); [done|].
  rewrite scan_all_dead; [done|].
  intros j _. unfold alive_at.
  destruct (backends lb !! _) as [b|] eqn:Hb; [|done].
  apply Hdead. by eapply list_elem_of_lookup_2.
Qed.

End LoadBalancerFacts.

Section NextSpec.
Import LB.

(** C1.  For a non-empty backend list, [Next] scans at most [N] slots
    ([N] the number of backends) from the cursor on, in registration order
    modulo [N]: it returns a backend exactly when that backend is the
    first live one of the scan, and then the cursor is one past its slot
    modulo [N]; it returns none exactly when all [N] scanned slots are
    dead, and then nothing changes, so that as long as every backend stays
    dead every further call returns none as well. *)
Theorem Next_health_aware_round_robin (lb : LoadBalancer) :
  backends lb ≠ [] →
  let N := length (backends lb) in
  (∀ idx lb',
     Next lb = (Some idx, lb') ↔
     ∃ i, i < N ∧ idx = (current lb + i) mod N ∧
          (∃ b, backends lb !! idx = Some b ∧ Alive b = true) ∧
          (∀ j, j < i → alive_at (backends lb) ((current lb + j) mod N) = false) ∧
          lb' = {| backends := backends lb; current := (idx + 1) mod N |}) ∧
  (∀ lb',
     Next lb = (None, lb') ↔
     (∀ j, j < N → alive_at (backends lb) ((current lb + j) mod N) = false) ∧
     lb' = lb) ∧
  ((∀ b, b ∈ backends lb → Alive b = false) →
   ∀ m, Next_n m lb = (replicate m None, lb)).
Proof.
  intros Hne N. split; [|split].
  - intros idx lb'. rewrite (Next_unfold lb Hne). fold N. split.
    + destruct (scan _ _ _ _) as [idx0|] eqn:Hs; [|discriminate].
      intros [= -> <-].
      apply scan_Some in Hs as (k & Hk & -> & Hlive & Hdead).
      exists k. repeat split; [lia| |intros; apply Hdead; lia].
      by apply alive_at_lookup.
    + intros (i & Hi & -> & Hlive & Hdead & ->).
      apply alive_at_lookup in Hlive.
      by rewrite (scan_first_live _ _ _ i Hne Hi Hlive Hdead).
  - intros lb'. rewrite (Next_unfold lb Hne). fold N. split.
    + destruct (scan _ _ _ _) as [idx0|] eqn:Hs; [discriminate|].
      intros [= <-]. split; [|done].
      intros j Hj. apply (scan_None _ _ _ _ Hne Hs). lia.
    + intros [Hdead ->]. by rewrite scan_all_dead.
  - intros Hdead m. induction m as [|m IH]; simpl; [done|].
    by rewrite (Next_all_dead lb Hdead), IH.
Qed.

Lemma Next_health_aware_round_robin_witness :
  let lb := {| backends := [mkBackend "http://localhost:8081" false;
                            mkBackend "http://localhost:8082" true];
               current := 0 |} in
  backends lb ≠ [] ∧
  Next lb = (Some 1, {| backends := backends lb; current := 0 |}).
Proof.
  intros lb. split; [discriminate|].
  apply (proj1 (Next_health_aware_round_robin lb ltac:(discriminate)) 1).
  exists 1. split; [simpl; lia|]. split; [reflexivity|]. split; [|split].
  - exists (mkBackend "http://localhost:8082" true). by split.
  - intros j Hj. assert (j = 0) as -> by lia. reflexivity.
  - reflexivity.
Defined.

End NextSpec.

(** ** Round robin with every backend live *)

Section RoundRobinFacts.
Import LB.

Lemma hits_app (K p a n m : nat) :
  hits K p a (n + m) = hits K p a n + hits K p (a + n) m.
Proof. unfold hits. by rewrite seq_app, filter_app, length_app. Qed.

Lemma hits_one (K p a : nat) :
  hits K p a 1 = if decide (a mod K = p) then 1 else 0.
Proof. unfold hits. simpl. rewrite filter_cons. by case_decide. Qed.

(** From slot 0 on and within one round, slot [p] has come up once the
    walk has passed it. *)
Lemma hits_prefix (K p n : nat) :
  n ≤ K → hits K p 0 n = if decide (p < n) then 1 else 0.
Proof.
  induction n as [|n IH]; intros Hn; [done|].
  replace (S n) with (n + 1) by lia.
  rewrite hits_app, hits_one, IH by lia. simpl.
  rewrite (Nat.mod_small n K) by lia.
  repeat case_decide; lia.
Qed.

(** Any [K] consecutive steps come by slot [p] exactly once. *)
Lemma hits_window (K p a : nat) : p < K → hits K p a K = 1.
Proof.
  intros Hp. induction a as [|a IH].
  - rewrite hits_prefix by lia. case_decide; lia.
  - pose proof (hits_app K p a 1 K) as H1.
    pose proof (hits_app K p a K 1) as H2.
    rewrite (Nat.add_comm 1 K) in H1. rewrite H2 in H1.
    rewrite !hits_one in H1.
    replace ((a + K) mod K) with (a mod K) in H1
      by (rewrite <- Nat.Div0.add_mod_idemp_r, Nat.Div0.mod_same, Nat.add_0_r; done).
    replace (a + 1) with (S a) in H1 by lia. lia.
Qed.

Lemma hits_le_1 (K p a n : nat) : p < K → n ≤ K → hits K p a n ≤ 1.
Proof.
  intros Hp Hn. pose proof (hits_app K p a n (K - n)) as H.
  replace (n + (K - n)) with K in H by lia.
  rewrite hits_window in H by done. lia.
Qed.

Lemma hits_rounds (K p a q r : nat) :
  p < K → hits K p a (q * K + r) = q + hits K p (a + q * K) r.
Proof.
  intros Hp. revert a. induction q as [|q IH]; intros a.
  - simpl. by rewrite Nat.add_0_r.
  - replace (S q * K + r) with (K + (q * K + r)) by lia.
    rewrite hits_app, hits_window, IH by done.
    replace (a + K + q * K) with (a + S q * K) by lia. lia.
Qed.

Lemma hits_bounds (K p a M : nat) :
  p < K → M / K ≤ hits K p a M ≤ M / K + 1.
Proof.
  intros Hp.
  assert (K ≠ 0) as HK by lia.
  pose proof (Nat.div_mod M K HK) as Hdm.
  pose proof (Nat.mod_upper_bound M K HK) as Hr.
  rewrite Hdm at 2 3. rewrite (Nat.mul_comm K), hits_rounds by done.
  pose proof (hits_le_1 K p (a + M / K * K) (M mod K) Hp). lia.
Qed.

Lemma times_selected_cycle (K c p s n : nat) :
  times_selected p (cycle K c s n) = hits K p (c + s) n.
Proof.
  unfold times_selected, cycle, hits. revert s.
  induction n as [|n IH]; intros s; [done|].
  cbn [seq]. rewrite fmap_cons, !filter_cons.
  specialize (IH (S s)). rewrite Nat.add_succ_r in IH.
  case_decide as H1; case_decide as H2; cbn [length]; rewrite ?IH; try done.
  - exfalso. apply H2. congruence.
  - exfalso. apply H1. congruence.
Qed.

End RoundRobinFacts.

Section RoundRobin.
Import LB.

Lemma Next_all_alive (lb : LoadBalancer) :
  backends lb ≠ [] →
  (∀ b, b ∈ backends lb → Alive b = true) →
  Next lb =
    (Some (current lb mod length (backends lb)),
     {| backends := backends lb;
        current := (current lb mod length (backends lb) + 1)
                   mod length (backends lb) |}).
Proof.
  intros Hne Hlive. rewrite (Next_unfold lb Hne).
  pose proof (scan_first_live (backends lb) (current lb)
                (length (backends lb)) 0 Hne) as Hs.
  rewrite Nat.add_0_r in Hs. rewrite Hs; [done| | |intros; lia].
  - apply length_pos in Hne. lia.
  - apply alive_at_lookup.
    destruct (lookup_lt_is_Some_2 (backends lb)
                (current lb mod length (backends lb))) as [b Hb].
    { apply Nat.mod_upper_bound. by apply length_pos. }
    exists b. split; [done|]. apply Hlive. by eapply list_elem_of_lookup_2.
Qed.

Lemma cycle_shift (K c M : nat) :
  cycle K ((c mod K + 1) mod K) 0 M = cycle K c 1 M.
Proof.
  unfold cycle. rewrite <- (seq_shift M 0), <- list_fmap_compose.
  apply list_fmap_ext. intros _ j _. simpl. f_equal.
  rewrite Nat.Div0.add_mod_idemp_l, <- Nat.add_assoc.
  by rewrite Nat.Div0.add_mod_idemp_l.
Qed.

Lemma Next_n_all_alive (M : nat) (lb : LoadBalancer) :
  backends lb ≠ [] →
  (∀ b, b ∈ backends lb → Alive b = true) →
  (Next_n M lb).1 = cycle (length (backends lb)) (current lb) 0 M.
Proof.
  revert lb. induction M as [|M IH]; intros lb Hne Hlive; [done|].
  simpl. rewrite (Next_all_alive lb Hne Hlive).
  specialize (IH {| backends := backends lb;
                    current := (current lb mod length (backends lb) + 1)
                               mod length (backends lb) |} Hne Hlive).
  destruct (Next_n M _) as [rs lb2]. simpl in *. rewrite IH, cycle_shift.
  unfold cycle. simpl. by rewrite Nat.add_0_r.
Qed.

Lemma cycle_lookup (K c s n j : nat) :
  j < n → cycle K c s n !! j = Some (Some ((c + (s + j)) mod K)).
Proof.
  intros Hj. unfold cycle. by rewrite list_lookup_fmap, lookup_seq_lt.
Qed.

Lemma cycle_window (K c s M : nat) :
  s + K ≤ M → take K (drop s (cycle K c 0 M)) = cycle K c s K.
Proof.
  intros H. unfold cycle.
  rewrite <- fmap_drop, <- fmap_take, drop_seq, take_seq. simpl.
  by replace (K `min` (M - s)) with K by lia.
Qed.

(** C7.  With all [K] backends live, the [j]-th of [M] consecutive
    selections is the slot [j] steps after the starting cursor in
    registration order, round the list (so the sequence is fixed by the
    cursor, and the addresses repeat with period [K]); every slot is
    selected [M / K] or [M / K + 1] times; and every [K] consecutive
    selections contain every slot exactly once. *)
Theorem round_robin_all_live (lb : LoadBalancer) (M : nat) :
  backends lb ≠ [] →
  (∀ b, b ∈ backends lb → Alive b = true) →
  let K := length (backends lb) in
  let sels := (Next_n M lb).1 in
  (∀ j, j < M → sels !! j = Some (Some ((current lb + j) mod K))) ∧
  (∀ j, j + K < M →
     address_of (backends lb) <$> sels !! (j + K) =
     address_of (backends lb) <$> sels !! j) ∧
  (∀ p, p < K → M / K ≤ times_selected p sels ≤ M / K + 1) ∧
  (∀ s p, p < K → s + K ≤ M →
     times_selected p (take K (drop s sels)) = 1).
Proof.
  intros Hne Hlive K sels.
  assert (sels = cycle K (current lb) 0 M) as Hsels
    by (apply Next_n_all_alive; done).
  rewrite Hsels. repeat split.
  - by apply cycle_lookup.
  - intros j Hj. rewrite !cycle_lookup by lia. simpl. do 3 f_equal.
    rewrite Nat.add_assoc, <- Nat.Div0.add_mod_idemp_r, Nat.Div0.mod_same.
    by rewrite Nat.add_0_r.
  - rewrite times_selected_cycle. by apply hits_bounds.
  - rewrite times_selected_cycle. by apply hits_bounds.
  - intros s p Hp Hs. rewrite cycle_window, times_selected_cycle by done.
    by apply hits_window.
Qed.

Lemma round_robin_all_live_witness :
  let lb := {| backends := [mkBackend "http://localhost:8081" true;
                            mkBackend "http://localhost:8082" true;
                            mkBackend "http://localhost:8083" true];
               current := 2 |} in
  (Next_n 7 lb).1 !! 4 = Some (Some 0) ∧
  2 ≤ times_selected 1 (Next_n 7 lb).1 ≤ 3.
Proof.
  intros lb.
  assert (backends lb ≠ []) as Hne by discriminate.
  assert (∀ b, b ∈ backends lb → Alive b = true) as Hlive.
  { intros b Hb. simpl in Hb. rewrite !elem_of_cons in Hb.
    destruct Hb as [->|[->|[->|Hb]]]; [done..|]. by apply elem_of_nil in Hb. }
  destruct (round_robin_all_live lb 7 Hne Hlive) as (H1 & _ & H3 & _).
  split.
  - apply (H1 4). lia.
  - apply (H3 1). simpl. lia.
Defined.

End RoundRobin.

(** ** The token bucket *)

(** ** The order of binary64 *)

Lemma SFcompare_antisym (a b : spec_float) :
  SFcompare b a = CompOpp <$> SFcompare a b.
Proof.
  destruct a as [sa|sa| |sa ma ea], b as [sb|sb| |sb mb eb]; simpl; try done;
    try (by destruct sa); try (by destruct sb); try (by destruct sa, sb).
  change (Pos.compare_cont Eq mb ma) with (Pos.compare mb ma).
  change (Pos.compare_cont Eq ma mb) with (Pos.compare ma mb).
  rewrite (Z.compare_antisym ea eb), (Pos.compare_antisym ma mb).
  destruct sa, sb; simpl; try done;
    destruct (Z.compare ea eb); simpl; done.
Qed.

Lemma SFcompare_refl (a : spec_float) :
  a ≠ S754_nan → SFcompare a a = Some Eq.
Proof.
  destruct a as [s|s| |s m e]; simpl; try done; try (by destruct s).
  intros _. rewrite Z.compare_refl.
  change (Pos.compare_cont Eq m m) with (Pos.compare m m).
  rewrite Pos.compare_refl. by destruct s.
Qed.

Lemma SFcompare_is_Some (a b : spec_float) :
  a ≠ S754_nan → b ≠ S754_nan → is_Some (SFcompare a b).
Proof.
  destruct a as [sa|sa| |sa ma ea], b as [sb|sb| |sb mb eb]; simpl; by eauto.
Qed.

Lemma SFleb_refl (a : spec_float) : a ≠ S754_nan → SFleb a a = true.
Proof. intros H. unfold SFleb. by rewrite SFcompare_refl. Qed.

Lemma SFltb_false_SFleb (a b : spec_float) :
  a ≠ S754_nan → b ≠ S754_nan → SFltb a b = false → SFleb b a = true.
Proof.
  intros Ha Hb. unfold SFltb, SFleb. rewrite (SFcompare_antisym a b).
  destruct (SFcompare_is_Some a b Ha Hb) as [c ->]. simpl. by destruct c.
Qed.

Lemma SFltb_SFleb (a b : spec_float) : SFltb a b = true → SFleb a b = true.
Proof. unfold SFltb, SFleb. by destruct (SFcompare a b) as [[]|]. Qed.

(** [float64(n)] of an [n] that is not negative has no sign. *)
Lemma binary_round_false_cases (m : positive) (e : Z) :
  match binary_round 53 1024 false m e with
  | S754_zero s | S754_infinity s | S754_finite s _ _ => s = false
  | S754_nan => True
  end.
Proof.
  unfold binary_round. destruct (shl_align _ _ _) as [mz ez].
  unfold binary_round_aux.
  destruct (shr_fexp _ _ _ _ _) as [mrs' e'].
  destruct (shr_fexp _ _ _ _ _) as [mrs'' e''].
  destruct (shr_m mrs''); [done| |done]. by destruct (Z.leb _ _).
Qed.

Lemma SFadd_zero_r (x : spec_float) :
  match x with S754_zero s => s = false | _ => True end →
  SFadd 53 1024 x (S754_zero false) = x.
Proof. destruct x as [s|s| |s m e]; simpl; try done. by intros ->. Qed.

Lemma Duration_Seconds_whole (k : Z) :
  (0 ≤ k)%Z → @Duration_Seconds binary64_Float64 (k * Second)%Z = binary64_of_int k.
Proof.
  intros Hk. unfold Duration_Seconds.
  rewrite Z.quot_mul, Z.rem_mul by done.
  change (f64_div (f64_of_int 0) (f64_of_int 1000000000)) with (S754_zero false).
  apply SFadd_zero_r. simpl. unfold binary64_of_int, binary_normalize.
  destruct k as [|m|m]; [done| |lia].
  pose proof (binary_round_false_cases m 0) as H.
  by destruct (binary_round 53 1024 false m 0).
Qed.

Section TokenBucketFacts.
Context `{F : Float64}.

Lemma tryConsume_allowed (tb : TokenBucket) (now : Time) :
  f64_ge (tokens (refill tb now)) (f64_of_int 1) = true →
  tryConsume tb now = (true, decrement (refill tb now)).
Proof. intros H. unfold tryConsume. by rewrite H. Qed.

Lemma tryConsume_denied (tb : TokenBucket) (now : Time) :
  f64_ge (tokens (refill tb now)) (f64_of_int 1) = false →
  tryConsume tb now = (false, refill tb now).
Proof. intros H. unfold tryConsume. by rewrite H. Qed.

Lemma tryConsume_cases (tb : TokenBucket) (now : Time) :
  tryConsume tb now = (true, decrement (refill tb now)) ∧
    f64_ge (tokens (refill tb now)) (f64_of_int 1) = true ∨
  tryConsume tb now = (false, refill tb now) ∧
    f64_ge (tokens (refill tb now)) (f64_of_int 1) = false.
Proof.
  destruct (f64_ge (tokens (refill tb now)) (f64_of_int 1)) eqn:H.
  - left. by rewrite tryConsume_allowed.
  - right. by rewrite tryConsume_denied.
Qed.

Lemma allowIP_tryConsume (rl : RateLimiter) (ip : string) (limit : Z)
    (t_new t_now : Time) :
  let r := tryConsume (lookup_or_new (ipLimits rl) ip limit t_new) t_now in
  allowIP rl ip limit t_new t_now =
    (r.1, {| ipLimits := <[ip := r.2]> (ipLimits rl); keyLimits := keyLimits rl |}).
Proof. simpl. unfold allowIP. by destruct (tryConsume _ _). Qed.

Lemma allowKey_tryConsume (rl : RateLimiter) (key : string) (limit : Z)
    (t_new t_now : Time) :
  let r := tryConsume (lookup_or_new (keyLimits rl) key limit t_new) t_now in
  allowKey rl key limit t_new t_now =
    (r.1, {| ipLimits := ipLimits rl; keyLimits := <[key := r.2]> (keyLimits rl) |}).
Proof. simpl. unfold allowKey. by destruct (tryConsume _ _). Qed.

(** C4.  [Allow] works on the bucket the map holds for the identity, or
    on a new one when it holds none.  It answers true exactly when the IP
    bucket allows and the key is empty or the key bucket allows; the IP
    bucket is stored as its [tryConsume] leaves it; when the IP bucket
    denies, the map of key buckets is as before (no bucket charged, none
    created); and an allowed request with a key leaves both its buckets
    with their refilled counts less 1. *)
Theorem Allow_ip_then_key (rl : RateLimiter) (ip key : string)
    (config : Config) (t : Readings) :
  let ip_bucket :=
    match ipLimits rl !! ip with
    | Some bucket => bucket
    | None => newBucket (RateLimitPerIP config) (t_ip_new t)
    end in
  let key_bucket :=
    match keyLimits rl !! key with
    | Some bucket => bucket
    | None => newBucket (RateLimitPerKey config) (t_key_new t)
    end in
  let ip_try := tryConsume ip_bucket (t_ip t) in
  let key_try := tryConsume key_bucket (t_key t) in
  let res := Allow rl ip key config t in
  res.1 = ip_try.1 && (String.eqb key EmptyString || key_try.1) ∧
  ipLimits res.2 = <[ip := ip_try.2]> (ipLimits rl) ∧
  (ip_try.1 = false → res.1 = false ∧ keyLimits res.2 = keyLimits rl) ∧
  (key ≠ EmptyString → res.1 = true →
     ipLimits res.2 !! ip = Some (decrement (refill ip_bucket (t_ip t))) ∧
     keyLimits res.2 !! key = Some (decrement (refill key_bucket (t_key t))) ∧
     tokens <$> ipLimits res.2 !! ip =
       Some (f64_sub (tokens (refill ip_bucket (t_ip t))) (f64_of_int 1)) ∧
     tokens <$> keyLimits res.2 !! key =
       Some (f64_sub (tokens (refill key_bucket (t_key t))) (f64_of_int 1))).
Proof.
  intros ip_bucket key_bucket ip_try key_try res.
  subst res. unfold Allow. rewrite allowIP_tryConsume.
  change (lookup_or_new (ipLimits rl) ip (RateLimitPerIP config) (t_ip_new t))
    with ip_bucket.
  fold ip_try.
  destruct (tryConsume_cases ip_bucket (t_ip t)) as [[Hi Hgi]|[Hi Hgi]];
    subst ip_try; rewrite Hi; simpl.
  - destruct (String.eqb_spec key EmptyString) as [->|Hk]; simpl.
    + by repeat split.
    + rewrite allowKey_tryConsume. simpl.
      change (lookup_or_new (keyLimits rl) key (RateLimitPerKey config)
                (t_key_new t)) with key_bucket.
      fold key_try.
      destruct (tryConsume_cases key_bucket (t_key t)) as [[Hc Hgc]|[Hc Hgc]];
        subst key_try; rewrite Hc; simpl.
      * split; [done|]. split; [done|]. split; [done|]. intros _ _.
        by rewrite !lookup_insert_eq.
      * by repeat split.
  - by repeat split.
Qed.

End TokenBucketFacts.

(** C2.  A [tryConsume] at [now] first refills:
    [tokens = min(capacity, tokens + elapsed * refillRate)], that is the
    capacity when the capacity is below the sum and the sum otherwise, with
    [elapsed] the seconds from [lastRefill] to [now] as
    [Duration.Seconds] gives them, and [lastRefill = now]; then, if the
    refilled count is at least 1, it subtracts 1 and allows, otherwise it
    denies and keeps the refilled bucket.  [allowIP] and [allowKey] do
    this on the bucket the map holds for the identity, or on a new one,
    which for a limit [limit] has capacity [limit] and rate
    [limit / 60.0].  In binary64 the refilled count is the capacity or the
    sum and exceeds neither (unless one of them is not a number), and a
    whole number [k] of seconds elapsed is [float64(k)]. *)
Theorem tryConsume_refill_then_check :
  (∀ (F : Float64) (tb : TokenBucket) (now : Time),
     let d := (now - lastRefill tb)%Z in
     let elapsed :=
       f64_add (f64_of_int (Z.quot d 1000000000))
               (f64_div (f64_of_int (Z.rem d 1000000000))
                        (f64_of_int 1000000000)) in
     let sum := f64_add (tokens tb) (f64_mul elapsed (refillRate tb)) in
     let refilled := if f64_lt (capacity tb) sum then capacity tb else sum in
     refill tb now =
       {| tokens := refilled; capacity := capacity tb;
          refillRate := refillRate tb; lastRefill := now |} ∧
     tryConsume tb now =
       (if f64_ge refilled (f64_of_int 1)
        then (true, {| tokens := f64_sub refilled (f64_of_int 1);
                       capacity := capacity tb;
                       refillRate := refillRate tb; lastRefill := now |})
        else (false, {| tokens := refilled; capacity := capacity tb;
                        refillRate := refillRate tb; lastRefill := now |}))) ∧
  (∀ (F : Float64) limit t,
     newBucket limit t =
       {| tokens := f64_of_int limit; capacity := f64_of_int limit;
          refillRate := f64_div (f64_of_int limit) (f64_of_int 60);
          lastRefill := t |}) ∧
  (∀ (F : Float64) (rl : RateLimiter) id limit t_new now,
     let bucket_of (m : gmap string TokenBucket) :=
       match m !! id with
       | Some bucket => bucket
       | None => newBucket limit t_new
       end in
     allowIP rl id limit t_new now =
       ((tryConsume (bucket_of (ipLimits rl)) now).1,
        {| ipLimits := <[id := (tryConsume (bucket_of (ipLimits rl)) now).2]>
                         (ipLimits rl);
           keyLimits := keyLimits rl |}) ∧
     allowKey rl id limit t_new now =
       ((tryConsume (bucket_of (keyLimits rl)) now).1,
        {| ipLimits := ipLimits rl;
           keyLimits := <[id := (tryConsume (bucket_of (keyLimits rl)) now).2]>
                          (keyLimits rl) |})) ∧
  (∀ (tb : @TokenBucket binary64_Float64) (now : Time),
     let elapsed : spec_float :=
       @Duration_Seconds binary64_Float64 (now - lastRefill tb)%Z in
     let sum : spec_float :=
       SFadd 53 1024 (tokens tb) (SFmul 53 1024 elapsed (refillRate tb)) in
     capacity tb ≠ S754_nan → sum ≠ S754_nan →
     (tokens (refill tb now) = capacity tb ∨ tokens (refill tb now) = sum) ∧
     SFleb (tokens (refill tb now)) (capacity tb) = true ∧
     SFleb (tokens (refill tb now)) sum = true) ∧
  (∀ k, (0 ≤ k)%Z →
     @Duration_Seconds binary64_Float64 (k * 1000000000)%Z = binary64_of_int k) ∧
  @Duration_Seconds binary64_Float64 1500000000%Z =
    S754_finite false 6755399441055744 (-52).
Proof.
  split; [|split; [|split; [|split; [|split]]]].
  - intros F tb now d elapsed sum refilled. split; [done|].
    unfold tryConsume.
    change (tokens (refill tb now)) with refilled.
    by destruct (f64_ge refilled (f64_of_int 1)).
  - done.
  - intros F rl id limit t_new now bucket_of.
    by rewrite allowIP_tryConsume, allowKey_tryConsume.
  - intros tb now elapsed sum Hc Hs.
    change (tokens (refill tb now))
      with (if SFltb (capacity tb) sum then capacity tb else sum).
    destruct (SFltb (capacity tb) sum) eqn:Hlt.
    + split; [by left|]. split; [by apply SFleb_refl|by apply SFltb_SFleb].
    + split; [by right|]. split; [by apply SFltb_false_SFleb|by apply SFleb_refl].
  - apply Duration_Seconds_whole.
  - by vm_compute.
Qed.

(** A run in binary64: the answers, and the tokens left. *)
Example bucket_run_binary64 :
  let run := tryConsume_seq (F := binary64_Float64) (newBucket 2%Z 0%Z)
               [0; 0; 0; 30000000000]%Z in
  run.1 = [true; true; false; true] ∧
  tokens run.2 = S754_zero false ∧
  SFleb (tokens run.2) (capacity run.2) = true.
Proof. by vm_compute. Qed.

(** C3 as stated fails for a negative limit (the flag [-rate-limit=-1]):
    the bucket is created with [-1] tokens, and a [tryConsume] one second
    later leaves it below zero. *)
Lemma bucket_negative_limit_below_zero :
  let readings := [1000000000]%Z in
  let tb := (tryConsume_seq (F := binary64_Float64) (newBucket (-1)%Z 0%Z) readings).2 in
  monotone_from 0%Z readings ∧
  SFleb (binary64_of_int 0) (tokens tb) = false ∧
  SFltb (tokens tb) (binary64_of_int 0) = true.
Proof.
  simpl. split; [lia|]. split; by vm_compute.
Qed.

(** ** The health checker *)

Lemma probe_failed_false (p : ProbeResult) :
  probe_failed p = false ↔ probe_ok_200 p.
Proof.
  unfold probe_failed, probe_ok_200.
  destruct p as [err resp]; simpl. destruct err; simpl.
  - split; [done|]. by intros [? _].
  - destruct resp as [sc|]; simpl.
    + rewrite negb_false_iff, Z.eqb_eq. split.
      * intros ->. split; [done|]. by intros ? [= <-].
      * intros [_ H]. by apply H.
    + split; [|done]. intros _. split; [done|]. by intros.
Qed.

(** C5 as stated fails for the status 204: the probe succeeded with a
    status of the class 2xx, and the live backend is marked dead and
    reported. *)
Lemma health_check_204_marks_dead :
  let b := mkBackend "http://localhost:8081" true in
  let p := mkProbe false (Some 204%Z) in
  spec_probe_succeeds p = true ∧
  checkBackendHealth b p =
    (mkBackend "http://localhost:8081" false,
     ["Backend http://localhost:8081 is now unhealthy"]).
Proof. by split. Qed.

(** C5, as the code has it.  A probe marks the backend alive exactly when
    it returned no error and the status 200, and dead otherwise; so a live
    backend goes dead iff the probe fails in this sense and a dead one
    comes alive iff it succeeds; and a line is reported iff the liveness
    flag changed (at most one line). *)
Theorem health_check_transitions (b : Backend) (p : ProbeResult) :
  let b' := (checkBackendHealth b p).1 in
  let out := (checkBackendHealth b p).2 in
  URL b' = URL b ∧
  (Alive b' = true ↔ probe_ok_200 p) ∧
  (Alive b = true ∧ Alive b' = false ↔ Alive b = true ∧ ¬ probe_ok_200 p) ∧
  (Alive b = false ∧ Alive b' = true ↔ Alive b = false ∧ probe_ok_200 p) ∧
  (out ≠ [] ↔ Alive b' ≠ Alive b) ∧
  length out ≤ 1.
Proof.
  unfold checkBackendHealth. rewrite <- (probe_failed_false p).
  destruct (probe_failed p), (Alive b); simpl;
    repeat split; try done; try lia; try (by intros [? ?]); try (by intros ?).
Qed.

(** ** The client identity *)

Lemma Split_nonempty (s : string) (sep : ascii) : Split s sep ≠ [].
Proof.
  destruct s as [|a s]; simpl; [done|].
  destruct (Ascii.eqb a sep); [done|]. by destruct (Split s sep).
Qed.

Lemma Split_before_sep (pre rest : string) (sep : ascii) :
  no_byte sep pre = true →
  Split (pre +:+ String sep rest) sep = pre :: Split rest sep.
Proof.
  induction pre as [|a pre IH]; simpl.
  - intros _. by rewrite Ascii.eqb_refl.
  - intros [Ha Hpre]%andb_true_iff. apply negb_true_iff in Ha.
    by rewrite Ha, IH.
Qed.

Lemma Split_no_sep (s : string) (sep : ascii) :
  no_byte sep s = true → Split s sep = [s].
Proof.
  induction s as [|a s IH]; simpl; [done|].
  intros [Ha Hs]%andb_true_iff. apply negb_true_iff in Ha.
  by rewrite Ha, IH.
Qed.

Lemma string_app_assoc (s1 s2 s3 : string) :
  (s1 +:+ s2) +:+ s3 = s1 +:+ (s2 +:+ s3).
Proof.
  induction s1 as [|a s1 IH]; [done|].
  change (String a ((s1 +:+ s2) +:+ s3) = String a (s1 +:+ (s2 +:+ s3))).
  by rewrite IH.
Qed.

Lemma clientIP_of_before_colon (pre rest : string) :
  no_byte ":" pre = true → clientIP_of (pre +:+ String ":" rest) = pre.
Proof. intros H. unfold clientIP_of. by rewrite Split_before_sep. Qed.

Lemma no_byte_neq (c : ascii) (s pre rest : string) :
  no_byte c s = true → s ≠ pre +:+ String c rest.
Proof.
  revert pre. induction s as [|a s IH]; intros pre; simpl.
  - by destruct pre.
  - intros [Ha Hs]%andb_true_iff. apply negb_true_iff in Ha.
    destruct pre as [|b pre]; simpl.
    + intros [= -> _]. by rewrite Ascii.eqb_refl in Ha.
    + intros [= _ H]. by apply (IH pre).
Qed.

(** C10 as stated fails for an address whose host does not begin with a
    colon: the identity of [[2001:db8::1]:443] is ["[2001"], not ["["], and
    it differs from the identity of [[fe80::1]:80]. *)
Lemma ipv6_identity_not_single_bracket :
  clientIP_of "[2001:db8::1]:443" = "[2001" ∧
  clientIP_of "[2001:db8::1]:443" ≠ "[" ∧
  clientIP_of "[fe80::1]:80" ≠ clientIP_of "[2001:db8::1]:443".
Proof. by repeat split. Qed.

(** The identity of a bracketed peer address. *)
Lemma clientIP_of_bracketed (pre rest port : string) :
  no_byte ":" pre = true →
  let host := pre +:+ String ":" rest in
  let peer := "[" +:+ host +:+ "]:" +:+ port in
  clientIP_of (pre +:+ String ":" rest) = pre ∧
  clientIP_of pre = pre ∧
  clientIP_of peer = "[" +:+ pre ∧
  (clientIP_of peer = "[" ↔ pre = EmptyString) ∧
  clientIP_of peer ≠ host ∧
  (∀ pre' rest' port',
     no_byte ":" pre' = true →
     (clientIP_of ("[" +:+ (pre' +:+ String ":" rest') +:+ "]:" +:+ port') =
        clientIP_of peer ↔ pre' = pre)).
Proof.
  intros Hpre host peer.
  assert (∀ p r q, no_byte ":" p = true →
            clientIP_of ("[" +:+ (p +:+ String ":" r) +:+ "]:" +:+ q) = "[" +:+ p)
    as Hpeer.
  { intros p r q Hp.
    replace ("[" +:+ (p +:+ String ":" r) +:+ "]:" +:+ q)
      with (("[" +:+ p) +:+ String ":" (r +:+ "]:" +:+ q)).
    - by apply clientIP_of_before_colon.
    - rewrite !string_app_assoc. done. }
  split; [by apply clientIP_of_before_colon|].
  split; [unfold clientIP_of; by rewrite Split_no_sep|].
  subst peer host. rewrite Hpeer by done.
  split; [done|]. change ("[" +:+ pre) with (String "[" pre).
  split; [|split].
  - split; [by intros [= ->]|by intros ->].
  - apply no_byte_neq. simpl. by rewrite Hpre.
  - intros pre' rest' port' Hpre'. rewrite Hpeer by done.
    change ("[" +:+ pre') with (String "[" pre').
    split; [by intros [= ->]|by intros ->].
Qed.


(** ** The dispatcher *)

Section DispatcherFacts.
Context `{F : Float64}.
Variable env : Env.
Variable clk : Clock.

Lemma handleRequest_health (r : Request.t) (g : Gateway) :
  Request.Path r = "/health" →
  handleRequest env clk r g = (Returned tt, g, [EvHandleHealth]).
Proof. intros H. unfold handleRequest. by rewrite H. Qed.

Ltac run_handler :=
  unfold handleRequest, bind, read_APIKeys, call_Allow, call_Next, read_URL,
    call_ServeHTTP, call_Log, call_httpError.

Lemma handleRequest_unauthorized (r : Request.t) (g : Gateway) :
  Request.Path r ≠ "/health" →
  unauthorized (config g) r = true →
  ∃ e, handleRequest env clk r g =
         (Returned tt,
          {| config := config g; lb := lb g; rateLimiter := rateLimiter g;
             logger := logger g ++ [e] |},
          [EvLog e; EvHttpError "Unauthorized: invalid API key" StatusUnauthorized]) ∧
       LogEntry.StatusCode e = StatusUnauthorized ∧
       LogEntry.ClientIP e = clientIP_of (Request.RemoteAddr r).
Proof.
  intros Hp Hu. run_handler.
  rewrite (proj2 (String.eqb_neq _ _) Hp).
  unfold unauthorized in Hu. rewrite Hu.
  eexists. split; [reflexivity|]. by destruct (negb _).
Qed.

Lemma handleRequest_rate_limited (r : Request.t) (g : Gateway) :
  let ip := clientIP_of (Request.RemoteAddr r) in
  let key := Request.X_API_Key r in
  let a := Allow (rateLimiter g) ip key (config g) (t_allow clk) in
  Request.Path r ≠ "/health" →
  unauthorized (config g) r = false →
  a.1 = false →
  ∃ e, handleRequest env clk r g =
         (Returned tt,
          {| config := config g; lb := lb g; rateLimiter := a.2;
             logger := logger g ++ [e] |},
          [EvAllow ip key; EvLog e;
           EvHttpError "Rate limit exceeded" StatusTooManyRequests]) ∧
       LogEntry.StatusCode e = StatusTooManyRequests ∧
       LogEntry.ClientIP e = ip.
Proof.
  intros ip key a Hp Hu Ha. run_handler.
  rewrite (proj2 (String.eqb_neq _ _) Hp).
  unfold unauthorized in Hu. rewrite Hu. simpl. fold ip key a.
  destruct a as [ok rl']. simpl in Ha. subst ok. simpl.
  eexists. split; [reflexivity|]. by destruct (negb _).
Qed.

Lemma handleRequest_no_backend (r : Request.t) (g : Gateway) :
  let ip := clientIP_of (Request.RemoteAddr r) in
  let key := Request.X_API_Key r in
  let a := Allow (rateLimiter g) ip key (config g) (t_allow clk) in
  let n := LB.Next (lb g) in
  Request.Path r ≠ "/health" →
  unauthorized (config g) r = false →
  a.1 = true →
  n.1 = None →
  ∃ e, handleRequest env clk r g =
         (Returned tt,
          {| config := config g; lb := n.2; rateLimiter := a.2;
             logger := logger g ++ [e] |},
          [EvAllow ip key; EvNext; EvLog e;
           EvHttpError "Service unavailable" StatusServiceUnavailable]) ∧
       LogEntry.StatusCode e = StatusServiceUnavailable ∧
       LogEntry.ClientIP e = ip.
Proof.
  intros ip key a n Hp Hu Ha Hn. run_handler.
  rewrite (proj2 (String.eqb_neq _ _) Hp).
  unfold unauthorized in Hu. rewrite Hu. simpl. fold ip key a.
  destruct a as [ok rl']. simpl in Ha. subst ok. simpl. fold n.
  destruct n as [res lb']. simpl in Hn. subst res. simpl.
  eexists. split; [reflexivity|]. by destruct (negb _).
Qed.

Lemma handleRequest_proxied (r : Request.t) (g : Gateway) (slot : nat) :
  let ip := clientIP_of (Request.RemoteAddr r) in
  let key := Request.X_API_Key r in
  let a := Allow (rateLimiter g) ip key (config g) (t_allow clk) in
  let n := LB.Next (lb g) in
  Request.Path r ≠ "/health" →
  unauthorized (config g) r = false →
  a.1 = true →
  n.1 = Some slot →
  Aborts env slot r = false →
  ∃ e, handleRequest env clk r g =
         (Returned tt,
          {| config := config g; lb := n.2; rateLimiter := a.2;
             logger := logger g ++ [e] |},
          [EvAllow ip key; EvNext; EvServeHTTP slot; EvLog e]) ∧
       LogEntry.StatusCode e =
         statusCode (fold_left writer_step (ServeHTTP env slot r)
                       {| statusCode := StatusOK; written := false |}) ∧
       LogEntry.ResponseTime e =
         Sprintf_2f_int64
           (Duration_Milliseconds (Time_Sub (t_end clk) (t_start clk))) ∧
       LogEntry.ClientIP e = ip.
Proof.
  intros ip key a n Hp Hu Ha Hn Hab. run_handler.
  rewrite (proj2 (String.eqb_neq _ _) Hp).
  unfold unauthorized in Hu. rewrite Hu. simpl. fold ip key a.
  destruct a as [ok rl']. simpl in Ha. subst ok. simpl. fold n.
  destruct n as [res lb']. simpl in Hn. subst res. simpl. rewrite Hab.
  eexists. split; [reflexivity|]. by destruct (negb _).
Qed.

(** The proxy call panics: [handleRequest] ends at line 233. *)
Lemma handleRequest_aborted (r : Request.t) (g : Gateway) (slot : nat) :
  let ip := clientIP_of (Request.RemoteAddr r) in
  let key := Request.X_API_Key r in
  let a := Allow (rateLimiter g) ip key (config g) (t_allow clk) in
  let n := LB.Next (lb g) in
  Request.Path r ≠ "/health" →
  unauthorized (config g) r = false →
  a.1 = true →
  n.1 = Some slot →
  Aborts env slot r = true →
  handleRequest env clk r g =
    (Panicked,
     {| config := config g; lb := n.2; rateLimiter := a.2;
        logger := logger g |},
     [EvAllow ip key; EvNext; EvServeHTTP slot]).
Proof.
  intros ip key a n Hp Hu Ha Hn Hab. run_handler.
  rewrite (proj2 (String.eqb_neq _ _) Hp).
  unfold unauthorized in Hu. rewrite Hu. simpl. fold ip key a.
  destruct a as [ok rl']. simpl in Ha. subst ok. simpl. fold n.
  destruct n as [res lb']. simpl in Hn. subst res. simpl. by rewrite Hab.
Qed.

End DispatcherFacts.

Section Dispatcher.
Context `{F : Float64}.
Variable env : Env.
Variable clk : Clock.

(** The identity handed to the rate limiter and written to the log. *)
Lemma handleRequest_identity (r : Request.t) (g : Gateway) :
  Request.Path r ≠ "/health" →
  let tr := (handleRequest env clk r g).2 in
  (∀ e, e ∈ logged tr →
     LogEntry.ClientIP e = clientIP_of (Request.RemoteAddr r)) ∧
  (∀ ip key, EvAllow ip key ∈ tr → ip = clientIP_of (Request.RemoteAddr r)) ∧
  (unauthorized (config g) r = false → calls_Allow tr = true).
Proof.
  intros Hp.
  destruct (unauthorized (config g) r) eqn:Hu.
  { destruct (handleRequest_unauthorized env clk r g Hp Hu) as (e & -> & _ & Hip).
    simpl. split; [|split; [|done]].
    - intros e' ->%list_elem_of_singleton. done.
    - intros ip key H. apply elem_of_cons in H as [[=]|H].
      apply list_elem_of_singleton in H. done. }
  destruct (Allow (rateLimiter g) (clientIP_of (Request.RemoteAddr r))
              (Request.X_API_Key r) (config g) (t_allow clk)).1 eqn:Ha.
  2:{ destruct (handleRequest_rate_limited env clk r g Hp Hu Ha) as (e & -> & _ & Hip).
      simpl. split; [|split; [|done]].
      - intros e' ->%list_elem_of_singleton. done.
      - intros ip key H. apply elem_of_cons in H as [[= -> _]|H]; [done|].
        apply elem_of_cons in H as [[=]|H].
        apply list_elem_of_singleton in H. done. }
  destruct (LB.Next (lb g)).1 as [slot|] eqn:Hn.
  - destruct (Aborts env slot r) eqn:Hab.
    { rewrite (handleRequest_aborted env clk r g slot Hp Hu Ha Hn Hab).
      simpl. split; [|split; [|done]].
      + intros e' []%elem_of_nil.
      + intros ip key H. apply elem_of_cons in H as [[= -> _]|H]; [done|].
        apply elem_of_cons in H as [[=]|H].
        apply list_elem_of_singleton in H. done. }
    destruct (handleRequest_proxied env clk r g slot Hp Hu Ha Hn Hab)
      as (e & -> & _ & _ & Hip).
    simpl. split; [|split; [|done]].
    + intros e' ->%list_elem_of_singleton. done.
    + intros ip key H. apply elem_of_cons in H as [[= -> _]|H]; [done|].
      apply elem_of_cons in H as [[=]|H].
      apply elem_of_cons in H as [[=]|H].
      apply list_elem_of_singleton in H. done.
  - destruct (handleRequest_no_backend env clk r g Hp Hu Ha Hn) as (e & -> & _ & Hip).
    simpl. split; [|split; [|done]].
    + intros e' ->%list_elem_of_singleton. done.
    + intros ip key H. apply elem_of_cons in H as [[= -> _]|H]; [done|].
      apply elem_of_cons in H as [[=]|H].
      apply elem_of_cons in H as [[=]|H].
      apply list_elem_of_singleton in H. done.
Qed.

(** C6.  What a request leaves in the log.  A request whose path is not
    [/health] leaves exactly one log entry, appended to the log, at each
    of the exits that return: the refusals 401, 429 and 503, and a proxy
    call that returns.  When the proxy call panics, [handleRequest] ends
    at line 233, before the [Log] of line 239: the request has taken its
    tokens and advanced the cursor, and no entry is written.  After a
    refusal no later stage runs: an unauthorized request reaches neither
    the rate limiter nor the load balancer nor a proxy, and leaves both
    unchanged; a rate-limited request reaches neither the load balancer
    nor a proxy and leaves the load balancer unchanged; a request without
    a live backend reaches no proxy. *)
Theorem aborted_proxy_call_leaves_no_log_entry (r : Request.t) (g : Gateway) :
  Request.Path r ≠ "/health" →
  let res := handleRequest env clk r g in
  let g' := res.1.2 in
  let tr := res.2 in
  let ip := clientIP_of (Request.RemoteAddr r) in
  let key := Request.X_API_Key r in
  let a := Allow (rateLimiter g) ip key (config g) (t_allow clk) in
  let n := LB.Next (lb g) in
  let proxied slot :=
    unauthorized (config g) r = false ∧ a.1 = true ∧ n.1 = Some slot in
  (∀ slot, proxied slot → Aborts env slot r = true →
     res.1.1 = Panicked ∧
     tr = [EvAllow ip key; EvNext; EvServeHTTP slot] ∧
     logged tr = [] ∧ logger g' = logger g ∧
     rateLimiter g' = a.2 ∧ lb g' = n.2) ∧
  ((∀ slot, proxied slot → Aborts env slot r = false) →
     res.1.1 = Returned tt ∧
     ∃ e, logged tr = [e] ∧ logger g' = logger g ++ [e]) ∧
  (unauthorized (config g) r = true →
     calls_Allow tr = false ∧ calls_Next tr = false ∧
     calls_ServeHTTP tr = false ∧
     rateLimiter g' = rateLimiter g ∧ lb g' = lb g) ∧
  (unauthorized (config g) r = false → a.1 = false →
     calls_Next tr = false ∧ calls_ServeHTTP tr = false ∧ lb g' = lb g) ∧
  (unauthorized (config g) r = false → a.1 = true → n.1 = None →
     calls_ServeHTTP tr = false).
Proof.
  intros Hp res g' tr ip key a n proxied. subst res g' tr proxied. simpl.
  destruct (unauthorized (config g) r) eqn:Hu.
  { destruct (handleRequest_unauthorized env clk r g Hp Hu) as (e & -> & _).
    simpl. split; [by intros slot (? & _)|].
    split; [intros _; split; [done|by exists e]|]. by repeat split. }
  destruct a.1 eqn:Ha; subst a.
  2:{ destruct (handleRequest_rate_limited env clk r g Hp Hu Ha) as (e & -> & _).
      simpl. split; [by intros slot (_ & ? & _)|].
      split; [intros _; split; [done|by exists e]|]. by repeat split. }
  destruct n.1 as [slot|] eqn:Hn; subst n.
  - destruct (Aborts env slot r) eqn:Hab.
    + rewrite (handleRequest_aborted env clk r g slot Hp Hu Ha Hn Hab). simpl.
      split; [by intros slot' (_ & _ & [= <-]) _|].
      split; [|by repeat split].
      intros H. specialize (H slot ltac:(done)). congruence.
    + destruct (handleRequest_proxied env clk r g slot Hp Hu Ha Hn Hab)
        as (e & -> & _).
      simpl. split; [intros slot' (_ & _ & [= <-]) Hab'; congruence|].
      split; [intros _; split; [done|by exists e]|]. by repeat split.
  - destruct (handleRequest_no_backend env clk r g Hp Hu Ha Hn) as (e & -> & _).
    simpl. split; [by intros slot (_ & _ & ?)|].
    split; [intros _; split; [done|by exists e]|]. by repeat split.
Qed.

End Dispatcher.

(** The first request of the example deployment, when the backend closes
    the connection in the middle of the body: the request is routed, the
    proxy is called, and the log stays empty. *)
Lemma aborted_proxy_call_leaves_no_log_entry_witness :
  let r := Example.request "/api/data" "127.0.0.1:5000" EmptyString in
  let res := handleRequest Example.env_aborting (Example.clock 0%Z) r Example.gw in
  Request.Path r ≠ "/health" ∧
  res.1.1 = Panicked ∧
  res.2 = [EvAllow "127.0.0.1" EmptyString; EvNext; EvServeHTTP 0] ∧
  logged res.2 = [] ∧ logger res.1.2 = logger Example.gw ∧
  current (lb res.1.2) = 1.
Proof.
  intros r res.
  assert (Request.Path r ≠ "/health") as Hp by discriminate.
  destruct (aborted_proxy_call_leaves_no_log_entry Example.env_aborting
              (Example.clock 0%Z) r Example.gw Hp) as (H & _).
  destruct (H 0) as (H1 & H2 & H3 & H4 & H5 & H6);
    [by vm_compute|reflexivity|].
  split; [exact Hp|]. split; [exact H1|]. split; [exact H2|].
  split; [exact H3|]. split; [exact H4|].
  subst res. by rewrite H6.
Defined.

(** A request for [/health] that reaches [handleRequest] is handed to
    [handleHealth] (lines 179-182) and leaves no log entry either; the mux
    of lines 126-127 routes that path to [handleHealth] directly. *)
Example health_path_leaves_no_log_entry :
  let r := Example.request "/health" "127.0.0.1:5000" EmptyString in
  let res := handleRequest Example.env (Example.clock 0%Z) r Example.gw in
  res.2 = [EvHandleHealth] ∧ logged res.2 = [] ∧
  logger res.1.2 = logger Example.gw.
Proof. by repeat split. Qed.

(** C8.  The entry of a proxied request carries in [ResponseTime] what
    [fmt.Sprintf("%.2f", n)] gives for the [int64] count [n] of elapsed
    milliseconds, which is never a decimal number: for the first request
    of the example deployment, answered after 5.3 ms, it is
    ["%!f(int64=05)"]. *)
Theorem response_time_is_a_formatting_artifact :
  (∀ n, is_decimal_number (Sprintf_2f_int64 n) = false) ∧
  let r := Example.request "/api/data" "127.0.0.1:5000" EmptyString in
  let res := handleRequest Example.env (Example.clock 0%Z) r Example.gw in
  res.2 = [EvAllow "127.0.0.1" EmptyString; EvNext; EvServeHTTP 0;
           EvLog {| LogEntry.Timestamp := "2026-01-01T00:00:00Z";
                    LogEntry.Method := "GET";
                    LogEntry.Path := "/api/data";
                    LogEntry.ClientIP := "127.0.0.1";
                    LogEntry.APIKey := EmptyString;
                    LogEntry.StatusCode := 200%Z;
                    LogEntry.ResponseTime := "%!f(int64=05)";
                    LogEntry.Backend := "http://localhost:8081";
                    LogEntry.Error := EmptyString |}] ∧
  ∀ e, logged res.2 = [e] →
       is_decimal_number (LogEntry.ResponseTime e) = false.
Proof.
  split; [done|]. intros r res.
  assert (res.2 = [EvAllow "127.0.0.1" EmptyString; EvNext; EvServeHTTP 0;
           EvLog {| LogEntry.Timestamp := "2026-01-01T00:00:00Z";
                    LogEntry.Method := "GET";
                    LogEntry.Path := "/api/data";
                    LogEntry.ClientIP := "127.0.0.1";
                    LogEntry.APIKey := EmptyString;
                    LogEntry.StatusCode := 200%Z;
                    LogEntry.ResponseTime := "%!f(int64=05)";
                    LogEntry.Backend := "http://localhost:8081";
                    LogEntry.Error := EmptyString |}]) as H by (by vm_compute).
  split; [exact H|]. rewrite H. simpl. by intros e [= <-].
Qed.

(** C10, as the code has it.  The identity handed to the rate limiter and
    written to the log is the part of the peer address before its first
    [':'] (the whole address when it has none).  For a peer
    ["[host]:port"] whose host is [pre:rest], [pre] without a colon, that
    is ["["] followed by [pre]: it is ["["] alone exactly when the host
    begins with a colon, it is never the host, and two such peers have the
    same identity exactly when their hosts agree up to the first colon. *)
Theorem client_identity_before_first_colon (pre rest port : string) :
  no_byte ":" pre = true →
  let host := pre +:+ String ":" rest in
  let peer := "[" +:+ host +:+ "]:" +:+ port in
  (∀ (F : Float64) env clk (r : Request.t) (g : @Gateway F),
     Request.Path r ≠ "/health" →
     let tr := (handleRequest env clk r g).2 in
     (∀ e, e ∈ logged tr →
        LogEntry.ClientIP e = clientIP_of (Request.RemoteAddr r)) ∧
     (∀ ip key, EvAllow ip key ∈ tr →
        ip = clientIP_of (Request.RemoteAddr r))) ∧
  clientIP_of (pre +:+ String ":" rest) = pre ∧
  clientIP_of pre = pre ∧
  clientIP_of peer = "[" +:+ pre ∧
  (clientIP_of peer = "[" ↔ pre = EmptyString) ∧
  clientIP_of peer ≠ host ∧
  (∀ pre' rest' port',
     no_byte ":" pre' = true →
     (clientIP_of ("[" +:+ (pre' +:+ String ":" rest') +:+ "]:" +:+ port') =
        clientIP_of peer ↔ pre' = pre)).
Proof.
  intros Hpre host peer. split.
  - intros F env clk r g Hp tr.
    destruct (handleRequest_identity env clk r g Hp) as (H1 & H2 & _).
    by split.
  - by apply clientIP_of_bracketed.
Qed.

Lemma client_identity_before_first_colon_witness :
  no_byte ":" "fe80" = true ∧
  clientIP_of "[fe80::1]:8080" = "[fe80" ∧
  clientIP_of "[fe80::1]:8080" ≠ "fe80::1".
Proof.
  split; [reflexivity|].
  pose proof (client_identity_before_first_colon "fe80" ":1" "8080" eq_refl)
    as (_ & _ & _ & H3 & _ & H5 & _).
  split; [exact H3|exact H5].
Defined.

(** ** Locks *)

Section LockFacts.
Import Sync.

Lemma locksets_accesses (held : list Mutex) (body rest : list Op) :
  forallb is_access body = true →
  locksets held (body ++ rest) = ((λ a, (a, held)) <$> body) ++ locksets held rest.
Proof.
  induction body as [|a body IH]; simpl; [done|].
  intros [Ha Hb]%andb_true_iff. destruct a; try done; by rewrite IH.
Qed.

(** A call that takes [m], reads and writes, and releases [m] holds
    exactly [m] at every read and write. *)
Lemma locksets_critical_section (m : Mutex) (body : list Op) :
  forallb is_access body = true →
  locksets [] ([Lock m] ++ body ++ [Unlock m]) = (λ a, (a, [m])) <$> body.
Proof.
  intros Hb. simpl. rewrite locksets_accesses by done. simpl.
  by rewrite app_nil_r.
Qed.

Lemma critical_section_held (m : Mutex) (body : list Op) (a : Op) (held : list Mutex) :
  forallb is_access body = true →
  (a, held) ∈ locksets [] ([Lock m] ++ body ++ [Unlock m]) →
  held = [m] ∧ a ∈ body.
Proof.
  intros Hb. rewrite locksets_critical_section by done.
  intros (a' & [= -> ->] & Ha)%list_elem_of_fmap. done.
Qed.

Lemma critical_section_held_for (m : Mutex) (l : Loc) (body : list Op) (a : Op) :
  forallb is_access body = true →
  a ∈ body → loc_of a = Some l →
  [m] ∈ held_for l ([Lock m] ++ body ++ [Unlock m]).
Proof.
  intros Hb Ha Hl. unfold held_for. rewrite locksets_critical_section by done.
  apply list_elem_of_omap. exists (a, [m]). split.
  - apply list_elem_of_fmap. by exists a.
  - simpl. by rewrite decide_True.
Qed.

Lemma scan_ops_accesses (bs : list Backend) (start i fuel : nat) :
  forallb is_access (scan_ops bs start i fuel) = true.
Proof.
  revert i. induction fuel as [|fuel IH]; intros i; simpl; [done|].
  destruct (bs !! _) as [b|]; [|done]. simpl.
  destruct (Alive b); [done|apply IH].
Qed.

(** The operations of the loop are those of the run of [LB.scan]: the
    cursor is written exactly when the loop returns a slot. *)
Lemma scan_ops_writes_cursor (bs : list Backend) (start i fuel : nat) :
  Write loc_current ∈ scan_ops bs start i fuel ↔
  is_Some (LB.scan bs start i fuel).
Proof.
  revert i. induction fuel as [|fuel IH]; intros i; simpl.
  - split; [by intros ?%elem_of_nil|by intros [? ?]].
  - destruct (bs !! _) as [b|]; [|split; [by intros ?%elem_of_nil|by intros [? ?]]].
    rewrite elem_of_cons. destruct (Alive b).
    + split; [by eauto|]. intros _. right. apply elem_of_cons. by left.
    + rewrite <- IH. split; [by intros [[=]|?]|by right].
Qed.

Lemma Next_ops_held (lb : LoadBalancer) (a : Op) (held : list Mutex) :
  (a, held) ∈ locksets [] (Next_ops lb) → held = [lb_mu].
Proof.
  unfold Next_ops. intros H. eapply critical_section_held; [|exact H].
  destruct (length (backends lb) =? 0); [done|]. simpl.
  apply scan_ops_accesses.
Qed.

Section AllowLocks.
Context `{F : Float64}.

Lemma allowIP_ops_accesses (rl : RateLimiter) ip limit t_new t_now :
  forallb is_access (allowIP_ops rl ip limit t_new t_now) = true.
Proof.
  unfold allowIP_ops. rewrite !forallb_app.
  destruct (ipLimits rl !! ip), (allowIP rl ip limit t_new t_now).1; done.
Qed.

Lemma allowKey_ops_accesses (rl : RateLimiter) key limit t_new t_now :
  forallb is_access (allowKey_ops rl key limit t_new t_now) = true.
Proof.
  unfold allowKey_ops. rewrite !forallb_app.
  destruct (keyLimits rl !! key), (allowKey rl key limit t_new t_now).1; done.
Qed.

Lemma Allow_ops_held (rl : RateLimiter) ip key config t (a : Op) (held : list Mutex) :
  (a, held) ∈ locksets [] (Allow_ops rl ip key config t) → held = [rl_mu].
Proof.
  unfold Allow_ops. intros H. eapply critical_section_held; [|exact H].
  rewrite forallb_app, allowIP_ops_accesses. simpl.
  destruct (_ && _); [apply allowKey_ops_accesses|done].
Qed.

Lemma Allow_ops_holds_rl_mu (rl : RateLimiter) ip key config t :
  [rl_mu] ∈ held_for (loc_ipBucket ip) (Allow_ops rl ip key config t).
Proof.
  unfold Allow_ops.
  apply (critical_section_held_for rl_mu _ _ (Read (loc_ipBucket ip))); [| |done].
  - rewrite forallb_app, allowIP_ops_accesses. simpl.
    destruct (_ && _); [apply allowKey_ops_accesses|done].
  - apply elem_of_app. left. unfold allowIP_ops.
    apply elem_of_app. right. apply elem_of_app. right.
    apply elem_of_app. left. apply elem_of_cons. by left.
Qed.

End AllowLocks.

(** C9 as stated fails.  Two [Allow] calls for different identities both
    work on their buckets with [rl.mu] held.  And [Next] reads the flag of
    slot 0 holding [lb.mu] alone, while [checkBackendHealth] writes it
    holding the mutex of the backend alone: no mutex is common to the
    two. *)
Lemma different_identities_contend_on_rl_mu :
  let rl := {| ipLimits := ∅; keyLimits := ∅ |} : @RateLimiter binary64_Float64 in
  let t := {| t_ip_new := 0; t_ip := 0; t_key_new := 0; t_key := 0 |}%Z in
  let call1 := Allow_ops rl "10.0.0.1" EmptyString Example.cfg t in
  let call2 := Allow_ops rl "10.0.0.2" EmptyString Example.cfg t in
  "10.0.0.1" ≠ "10.0.0.2" ∧
  contend (loc_ipBucket "10.0.0.1") call1 (loc_ipBucket "10.0.0.2") call2 ∧
  ¬ contend (loc_Alive 0) (Next_ops (lb Example.gw))
            (loc_Alive 0) (checkBackendHealth_ops 0).
Proof.
  intros rl t call1 call2. split; [done|]. split.
  - exists rl_mu, [rl_mu], [rl_mu].
    split; [apply Allow_ops_holds_rl_mu|].
    split; [apply Allow_ops_holds_rl_mu|].
    split; apply elem_of_cons; by left.
  - intros (m & h1 & h2 & H1 & H2 & Hm1 & Hm2).
    assert (held_for (loc_Alive 0) (Next_ops (lb Example.gw)) = [[lb_mu]])
      as E1 by (by vm_compute).
    assert (held_for (loc_Alive 0) (checkBackendHealth_ops 0) =
              [[backend_mu 0]; [backend_mu 0]]) as E2 by (by vm_compute).
    rewrite E1 in H1. rewrite E2 in H2.
    apply list_elem_of_singleton in H1. subst h1.
    apply list_elem_of_singleton in Hm1. subst m.
    apply elem_of_cons in H2 as [->|H2].
    + by apply list_elem_of_singleton in Hm2.
    + apply list_elem_of_singleton in H2. subst h2.
      by apply list_elem_of_singleton in Hm2.
Qed.

(** C9, as the code has it.  Every read and write of the cursor in [Next]
    is made under [lb.mu]; the health checker reads and writes the flag
    of a backend under the mutex of that backend, and holds nothing else,
    and different backends have different mutexes; every read and write
    of a map or a bucket in [Allow] is made under [rl.mu], so that the
    calls for any two identities contend on it. *)
Theorem lock_discipline :
  (∀ lb, guarded_by lb_mu loc_current (Next_ops lb)) ∧
  (∀ slot,
     guarded_by (backend_mu slot) (loc_Alive slot) (checkBackendHealth_ops slot) ∧
     ∀ a held, (a, held) ∈ locksets [] (checkBackendHealth_ops slot) →
               held = [backend_mu slot]) ∧
  (∀ slot slot', slot ≠ slot' → backend_mu slot ≠ backend_mu slot') ∧
  (∀ (F : Float64) (rl : @RateLimiter F) ip key config t a held,
     (a, held) ∈ locksets [] (Allow_ops rl ip key config t) → held = [rl_mu]) ∧
  (∀ (F : Float64) (rl1 rl2 : @RateLimiter F) ip1 ip2 key1 key2 config t1 t2,
     contend (loc_ipBucket ip1) (Allow_ops rl1 ip1 key1 config t1)
             (loc_ipBucket ip2) (Allow_ops rl2 ip2 key2 config t2)).
Proof.
  split; [|split; [|split; [|split]]].
  - intros lb a held H _. rewrite (Next_ops_held lb a held H).
    apply elem_of_cons. by left.
  - intros slot.
    assert (∀ a held, (a, held) ∈ locksets [] (checkBackendHealth_ops slot) →
                      held = [backend_mu slot]) as Hheld.
    { intros a held H. by apply (critical_section_held (backend_mu slot)
        [Read (loc_Alive slot); Write (loc_Alive slot)]) in H as [-> _]. }
    split; [|done]. intros a held H _. rewrite (Hheld a held H).
    apply elem_of_cons. by left.
  - intros slot slot' Hne [= ?]. done.
  - intros F rl ip key config t a held. apply Allow_ops_held.
  - intros F rl1 rl2 ip1 ip2 key1 key2 config t1 t2.
    exists rl_mu, [rl_mu], [rl_mu].
    split; [apply Allow_ops_holds_rl_mu|].
    split; [apply Allow_ops_holds_rl_mu|].
    split; apply elem_of_cons; by left.
Qed.

End LockFacts.

(** ** The example deployment *)

Lemma Allow_ip_then_key_witness :
  let b5 :=
    @mkTokenBucket binary64_Float64 (binary64_of_int 5) (binary64_of_int 100)
      (SFdiv 53 1024 (binary64_of_int 100) (binary64_of_int 60)) 0%Z in
  let b3 :=
    @mkTokenBucket binary64_Float64 (binary64_of_int 3) (binary64_of_int 1000)
      (SFdiv 53 1024 (binary64_of_int 1000) (binary64_of_int 60)) 0%Z in
  let rl := @mkRateLimiter binary64_Float64 (<["10.0.0.1" := b5]> ∅)
              (<["key-admin" := b3]> ∅) in
  let t := {| t_ip_new := 0; t_ip := 0; t_key_new := 0; t_key := 0 |}%Z in
  let res := Allow rl "10.0.0.1" "key-admin" Example.cfg t in
  "key-admin" ≠ EmptyString ∧ res.1 = true ∧
  @tokens binary64_Float64 <$> ipLimits res.2 !! "10.0.0.1" =
    Some (binary64_of_int 4) ∧
  @tokens binary64_Float64 <$> keyLimits res.2 !! "key-admin" =
    Some (binary64_of_int 2).
Proof.
  intros b5 b3 rl t res.
  assert ("key-admin" ≠ EmptyString) as Hk by discriminate.
  destruct (Allow_ip_then_key rl "10.0.0.1" "key-admin" Example.cfg t)
    as (H1 & _ & _ & H4).
  simpl in H1, H4. rewrite !lookup_insert_eq in H1, H4.
  assert (res.1 = true) as Hok.
  { subst res. rewrite H1. by vm_compute. }
  destruct (H4 Hk Hok) as (_ & _ & Hip & Hkey).
  split; [exact Hk|]. split; [exact Hok|].
  split; [exact (eq_trans Hip ltac:(by vm_compute))
         |exact (eq_trans Hkey ltac:(by vm_compute))].
Defined.

(** Scenario A of the specification: two live backends, four requests of
    one client, routed to backend 0, 1, 0, 1. *)
Example four_requests_alternate :
  let r := Example.request "/api/data" "127.0.0.1:5000" EmptyString in
  let step g t := (handleRequest Example.env (Example.clock t) r g).1.2 in
  let g4 := step (step (step (step Example.gw 0%Z) 1%Z) 2%Z) 3%Z in
  (λ e, (LogEntry.StatusCode e, LogEntry.Backend e)) <$> logger g4 =
    [(200, "http://localhost:8081"); (200, "http://localhost:8082");
     (200, "http://localhost:8081"); (200, "http://localhost:8082")]%Z.
Proof. by vm_compute. Qed.

(** Scenario B of the specification: a limit of 2 a minute and three
    requests at once, answered 200, 200, 429; in binary64. *)
Example third_request_rate_limited :
  let cfg2 := {| Port := 8080; Backends := Backends Example.cfg;
                 RateLimitPerIP := 2; RateLimitPerKey := 1000;
                 HealthCheckInterval := 10 * Second;
                 APIKeys := APIKeys Example.cfg |}%Z in
  let g0 := {| config := cfg2; lb := lb Example.gw;
               rateLimiter := rateLimiter Example.gw; logger := [] |} in
  let r := Example.request "/api/data" "127.0.0.1:5000" EmptyString in
  let step g := (handleRequest Example.env (Example.clock 0%Z) r g).1.2 in
  LogEntry.StatusCode <$> logger (step (step (step g0))) = [200; 200; 429]%Z.
Proof. by vm_compute. Qed.

(** Scenario D of the specification: the only backend dead, answered 503. *)
Example dead_backend_unavailable :
  let g0 := {| config := Example.cfg;
               lb := {| backends := [mkBackend "http://localhost:8081" true];
                        current := 0 |};
               rateLimiter := rateLimiter Example.gw; logger := [] |} in
  let lb1 := (checkBackendHealth_at (lb g0) 0 (mkProbe true None)).1 in
  let g1 := {| config := config g0; lb := lb1;
               rateLimiter := rateLimiter g0; logger := logger g0 |} in
  let r := Example.request "/api/data" "127.0.0.1:5000" EmptyString in
  LogEntry.StatusCode <$>
    logger (handleRequest Example.env (Example.clock 0%Z) r g1).1.2 = [503%Z].
Proof. by vm_compute. Qed.

(** * Further properties of the code *)

(** ** The load balancer over many calls *)

Section NextInvariants.
Import LB.

Lemma Next_result (lb : LoadBalancer) :
  backends (Next lb).2 = backends lb ∧
  (∀ idx, (Next lb).1 = Some idx →
     idx < length (backends lb) ∧ alive_at (backends lb) idx = true) ∧
  (current lb < length (backends lb) →
   current (Next lb).2 < length (backends lb)).
Proof.
  unfold Next. destruct (Nat.eqb_spec (length (backends lb)) 0) as [H0|H0].
  { simpl. repeat split; [done|done|lia]. }
  destruct (scan _ _ _ _) as [i|] eqn:Hs; simpl; [|by repeat split].
  apply scan_Some in Hs as (k & _ & -> & Hlive & _).
  split; [done|]. split.
  - intros idx [= <-]. split; [by apply Nat.mod_upper_bound|done].
  - intros _. by apply Nat.mod_upper_bound.
Qed.

Lemma Next_n_app (m k : nat) (lb : LoadBalancer) :
  Next_n (m + k) lb =
    ((Next_n m lb).1 ++ (Next_n k (Next_n m lb).2).1,
     (Next_n k (Next_n m lb).2).2).
Proof.
  revert lb. induction m as [|m IH]; intros lb; simpl.
  - by destruct (Next_n k lb).
  - destruct (Next lb) as [r lb1]. rewrite IH.
    destruct (Next_n m lb1) as [rs lb2]. simpl.
    by destruct (Next_n k lb2).
Qed.

Lemma Next_n_results (M : nat) (lb : LoadBalancer) :
  backends (Next_n M lb).2 = backends lb ∧
  (∀ idx, Some idx ∈ (Next_n M lb).1 →
     idx < length (backends lb) ∧ alive_at (backends lb) idx = true) ∧
  (current lb < length (backends lb) →
   current (Next_n M lb).2 < length (backends lb)).
Proof.
  revert lb. induction M as [|M IH]; intros lb; simpl.
  { split; [done|]. split; [|done]. by intros idx ?%elem_of_nil. }
  destruct (Next_result lb) as (Hb & Hsel & Hcur).
  destruct (Next lb) as [r lb1]. simpl in *.
  destruct (IH lb1) as (Hb' & Hsel' & Hcur').
  destruct (Next_n M lb1) as [rs lb2]. simpl in *.
  rewrite Hb in *. split; [done|]. split.
  - intros idx [Heq|Hin]%elem_of_cons; [by apply Hsel|by apply Hsel'].
  - intros Hc. by apply Hcur', Hcur.
Qed.

Lemma Next_n_length (M : nat) (lb : LoadBalancer) :
  length (Next_n M lb).1 = M.
Proof.
  revert lb. induction M as [|M IH]; intros lb; simpl; [done|].
  destruct (Next lb) as [r lb1]. specialize (IH lb1).
  destruct (Next_n M lb1). simpl in *. by rewrite IH.
Qed.

(** X1.  Whatever the number of calls, [Next] never changes the list of
    backends or their flags, never returns a slot outside the list or a
    dead backend, and keeps a cursor that is inside the list inside it. *)
Theorem Next_n_selects_live_slots (M : nat) (lb : LoadBalancer) :
  length (Next_n M lb).1 = M ∧
  backends (Next_n M lb).2 = backends lb ∧
  (∀ idx, Some idx ∈ (Next_n M lb).1 →
     ∃ b, backends lb !! idx = Some b ∧ Alive b = true) ∧
  (current lb < length (backends lb) →
   current (Next_n M lb).2 < length (backends lb)).
Proof.
  destruct (Next_n_results M lb) as (Hb & Hsel & Hcur).
  split; [apply Next_n_length|]. split; [done|]. split; [|done].
  intros idx Hin. apply alive_at_lookup. by apply Hsel.
Qed.

Lemma offset_reaches (N cur p : nat) :
  p < N → (cur + (p + N - cur mod N) mod N) mod N = p.
Proof.
  intros Hp. assert (N ≠ 0) as HN by lia.
  pose proof (Nat.mod_upper_bound cur N HN) as Hc.
  rewrite Nat.Div0.add_mod_idemp_r.
  pose proof (Nat.div_mod cur N HN) as Hdm.
  replace (cur + (p + N - cur mod N)) with (p + (cur / N + 1) * N) by nia.
  rewrite Nat.Div0.mod_add. by apply Nat.mod_small.
Qed.

(** A live backend [d] steps ahead of the cursor is selected within
    [d + 1] calls. *)
Lemma selected_within (d : nat) (lb : LoadBalancer) :
  backends lb ≠ [] →
  d < length (backends lb) →
  alive_at (backends lb) ((current lb + d) mod length (backends lb)) = true →
  Some ((current lb + d) mod length (backends lb)) ∈ (Next_n (S d) lb).1.
Proof.
  revert lb. induction (lt_wf d) as [d _ IH]. intros lb Hne Hd Hlive.
  assert (length (backends lb) ≠ 0) as HN by by apply length_pos.
  simpl. rewrite (Next_unfold lb Hne).
  destruct (scan _ _ _ _) as [idx|] eqn:Hs.
  2:{ rewrite (scan_None _ _ _ _ Hne Hs d) in Hlive; [done|lia]. }
  apply scan_Some in Hs as (k & Hk & -> & Hlivek & Hdead).
  destruct (Nat.lt_trichotomy k d) as [Hlt|[->|Hgt]].
  - set (lb1 := {| backends := backends lb;
                   current := ((current lb + k) mod length (backends lb) + 1)
                              mod length (backends lb) |}).
    assert ((current lb1 + (d - k - 1)) mod length (backends lb1) =
            (current lb + d) mod length (backends lb)) as Heq.
    { simpl. rewrite Nat.Div0.add_mod_idemp_l, <- Nat.add_assoc.
      rewrite Nat.Div0.add_mod_idemp_l. f_equal. lia. }
    pose proof (IH (d - k - 1) ltac:(lia) lb1 Hne ltac:(simpl; lia)) as Hin.
    rewrite Heq in Hin. specialize (Hin Hlive).
    pose proof (Next_n_app (S (d - k - 1)) k lb1) as Happ.
    replace (S (d - k - 1) + k) with d in Happ by lia.
    destruct (Next_n d lb1) as [rs lb2]. simpl.
    apply elem_of_cons. right.
    injection Happ as -> _. apply elem_of_app. by left.
  - destruct (Next_n d _). simpl. apply elem_of_cons. by left.
  - rewrite Hdead in Hlive; [done|lia].
Qed.

Lemma selected_within_N (lb : LoadBalancer) (p : nat) :
  alive_at (backends lb) p = true →
  Some p ∈ (Next_n (length (backends lb)) lb).1.
Proof.
  intros Hlive.
  assert (p < length (backends lb)) as Hp.
  { unfold alive_at in Hlive. destruct (backends lb !! p) eqn:Hb; [|done].
    by eapply lookup_lt_Some. }
  assert (backends lb ≠ []) as Hne by (intros E; rewrite E in Hp; simpl in Hp; lia).
  set (N := length (backends lb)) in *.
  set (d := (p + N - current lb mod N) mod N).
  assert (d < N) as Hd by (apply Nat.mod_upper_bound; lia).
  pose proof (offset_reaches N (current lb) p Hp) as Hoff. fold d in Hoff.
  pose proof (selected_within d lb Hne Hd) as Hin. fold N in Hin.
  rewrite Hoff in Hin. specialize (Hin Hlive).
  pose proof (Next_n_app (S d) (N - S d) lb) as Happ.
  replace (S d + (N - S d)) with N in Happ by lia.
  rewrite Happ. simpl. apply elem_of_app. by left.
Qed.

(** [Next] returns none only when every backend is dead. *)
Lemma Next_None_all_dead (lb : LoadBalancer) :
  (Next lb).1 = None ↔ ∀ b, b ∈ backends lb → Alive b = false.
Proof.
  split.
  - intros HNone b [p Hp]%list_elem_of_lookup.
    destruct (Alive b) eqn:Ha; [|done]. exfalso.
    assert (alive_at (backends lb) p = true) as Hlive
      by (unfold alive_at; by rewrite Hp).
    assert (backends lb ≠ []) as Hne by (intros E; by rewrite E in Hp).
    rewrite (Next_unfold lb Hne) in HNone.
    destruct (scan _ _ _ _) eqn:Hs; [done|].
    pose proof (lookup_lt_Some _ _ _ Hp) as Hlt.
    pose proof (scan_None _ _ _ _ Hne Hs
                  ((p + length (backends lb)
                    - current lb mod length (backends lb))
                   mod length (backends lb))) as Hdead.
    rewrite offset_reaches in Hdead by done.
    rewrite Hdead in Hlive; [done|]. split; [lia|].
    apply Nat.mod_upper_bound. lia.
  - intros Hdead. by rewrite Next_all_dead.
Qed.

(** X2.  No live backend is starved: whatever the cursor and whichever
    other backends are dead, a live backend is selected at least once in
    any [N] consecutive calls, [N] the number of backends; and while some
    backend is live [Next] does not return none. *)
Theorem live_backend_selected_within_N (lb : LoadBalancer) (p : nat) :
  alive_at (backends lb) p = true →
  Some p ∈ (Next_n (length (backends lb)) lb).1 ∧
  ∃ idx, (Next lb).1 = Some idx.
Proof.
  intros Hlive. split; [by apply selected_within_N|].
  destruct (Next lb).1 as [idx|] eqn:HN; [by exists idx|].
  pose proof (proj1 (Next_None_all_dead lb) HN) as Hdead.
  apply alive_at_lookup in Hlive as (b & Hb & Ha).
  rewrite (Hdead b) in Ha; [done|]. by eapply list_elem_of_lookup_2.
Qed.

Lemma live_backend_selected_within_N_witness :
  let lb := {| backends := [mkBackend "a" false; mkBackend "b" true;
                            mkBackend "c" false];
               current := 2 |} in
  alive_at (backends lb) 1 = true ∧ Some 1 ∈ (Next_n 3 lb).1.
Proof.
  intros lb. split; [reflexivity|].
  exact (proj1 (live_backend_selected_within_N lb 1 eq_refl)).
Defined.

End NextInvariants.

(** ** The health checker over many probes *)

Section HealthChecks.
Import LB.

Lemma checkBackendHealth_state (b : Backend) (p : ProbeResult) :
  (checkBackendHealth b p).1 = {| URL := URL b; Alive := negb (probe_failed p) |}.
Proof. unfold checkBackendHealth. by destruct (probe_failed p). Qed.

Lemma checkBackendHealth_at_state (lb : LoadBalancer) (idx : nat) (p : ProbeResult) :
  current (checkBackendHealth_at lb idx p).1 = current lb ∧
  ∀ i, backends (checkBackendHealth_at lb idx p).1 !! i =
       (λ b, if decide (i = idx)
             then {| URL := URL b; Alive := negb (probe_failed p) |}
             else b) <$> backends lb !! i.
Proof.
  unfold checkBackendHealth_at.
  destruct (backends lb !! idx) as [b|] eqn:Hb.
  - pose proof (checkBackendHealth_state b p) as Hs.
    destruct (checkBackendHealth b p) as [b' out]. simpl in *. subst b'.
    split; [done|]. intros i. destruct (decide (i = idx)) as [->|Hne].
    + rewrite list_lookup_insert_eq by by eapply lookup_lt_Some.
      by rewrite Hb.
    + rewrite list_lookup_insert_ne by done.
      destruct (backends lb !! i); simpl; done.
  - simpl. split; [done|]. intros i. destruct (decide (i = idx)) as [->|Hne].
    + by rewrite Hb.
    + destruct (backends lb !! i); simpl; done.
Qed.

Lemma run_checks_state (probe : nat → ProbeResult) (order : list nat)
    (lb : LoadBalancer) :
  current (run_checks probe order lb).1 = current lb ∧
  ∀ i, backends (run_checks probe order lb).1 !! i =
       (λ b, if decide (i ∈ order) then probed probe i b else b)
         <$> backends lb !! i.
Proof.
  revert lb. induction order as [|idx rest IH]; intros lb; simpl.
  { split; [done|]. intros i.
    destruct (decide (i ∈ [])) as [H|_]; [by apply elem_of_nil in H|].
    destruct (backends lb !! i); simpl; done. }
  destruct (checkBackendHealth_at_state lb idx (probe idx)) as [Hc Hl].
  destruct (checkBackendHealth_at lb idx (probe idx)) as [lb1 out1].
  simpl in *. destruct (IH lb1) as [Hc' Hl'].
  destruct (run_checks probe rest lb1) as [lb2 out2]. simpl in *.
  split; [congruence|]. intros i. rewrite Hl', Hl.
  destruct (backends lb !! i) as [b|]; simpl; [|done]. f_equal.
  destruct (decide (i = idx)) as [->|Hne].
  - rewrite (decide_True (P := idx ∈ idx :: rest)) by (apply elem_of_cons; by left).
    by destruct (decide (idx ∈ rest)).
  - destruct (decide (i ∈ rest)) as [Hin|Hnin].
    + by rewrite (decide_True (P := i ∈ idx :: rest)) by (apply elem_of_cons; by right).
    + rewrite (decide_False (P := i ∈ idx :: rest)); [done|].
      intros [?|?]%elem_of_cons; done.
Qed.

Lemma LoadBalancer_eq (lb1 lb2 : LoadBalancer) :
  current lb1 = current lb2 →
  (∀ i, backends lb1 !! i = backends lb2 !! i) →
  lb1 = lb2.
Proof.
  destruct lb1, lb2. simpl. intros -> H. f_equal. by apply list_eq.
Qed.

(** A check whose probe agrees with the flag changes nothing and reports
    nothing. *)
Lemma checkBackendHealth_at_silent (lb : LoadBalancer) (idx : nat) (p : ProbeResult) :
  (∀ b, backends lb !! idx = Some b → Alive b = negb (probe_failed p)) →
  checkBackendHealth_at lb idx p = (lb, []).
Proof.
  intros H. unfold checkBackendHealth_at.
  destruct (backends lb !! idx) as [b|] eqn:Hb; [|done].
  specialize (H b eq_refl). unfold checkBackendHealth. rewrite H.
  destruct lb as [bs c]. simpl in *.
  destruct (probe_failed p); simpl; f_equal; f_equal;
    apply list_insert_id; rewrite Hb; f_equal; destruct b; simpl in *; by subst.
Qed.

Lemma run_checks_silent (probe : nat → ProbeResult) (order : list nat)
    (lb : LoadBalancer) :
  (∀ idx b, idx ∈ order → backends lb !! idx = Some b →
            Alive b = negb (probe_failed (probe idx))) →
  run_checks probe order lb = (lb, []).
Proof.
  induction order as [|idx rest IH]; intros H; simpl; [done|].
  rewrite checkBackendHealth_at_silent.
  - rewrite IH; [done|]. intros i b Hi. apply H. apply elem_of_cons. by right.
  - intros b. apply H. apply elem_of_cons. by left.
Qed.

(** X3.  A failed probe takes the backend out of the rotation: no later
    [Next] returns it, however many calls are made; a successful probe
    puts it back: it is selected within the next [N] calls. *)
Theorem probe_decides_rotation (lb : LoadBalancer) (idx : nat) (p : ProbeResult) :
  idx < length (backends lb) →
  let lb' := (checkBackendHealth_at lb idx p).1 in
  (probe_failed p = true → ∀ M, Some idx ∉ (Next_n M lb').1) ∧
  (probe_failed p = false → Some idx ∈ (Next_n (length (backends lb)) lb').1).
Proof.
  intros Hidx lb'.
  destruct (checkBackendHealth_at_state lb idx p) as [_ Hl]. fold lb' in Hl.
  destruct (lookup_lt_is_Some_2 _ _ Hidx) as [b Hb].
  assert (alive_at (backends lb') idx = negb (probe_failed p)) as Hflag.
  { unfold alive_at. rewrite Hl, Hb. simpl. by rewrite decide_True. }
  assert (length (backends lb') = length (backends lb)) as Hlen.
  { apply Nat.le_antisymm; apply Nat.nlt_ge; intros Hlt.
    - destruct (lookup_lt_is_Some_2 (backends lb') (length (backends lb)) Hlt)
        as [x Hx].
      rewrite Hl, (lookup_ge_None_2 (backends lb)) in Hx by lia. done.
    - destruct (lookup_lt_is_Some_2 (backends lb) (length (backends lb')) Hlt)
        as [x Hx].
      pose proof (Hl (length (backends lb'))) as Hl'.
      rewrite Hx, (lookup_ge_None_2 (backends lb')) in Hl' by lia. done. }
  split.
  - intros Hf M Hin.
    destruct (Next_n_results M lb') as (_ & Hsel & _).
    destruct (Hsel idx Hin) as [_ Hlive].
    rewrite Hflag, Hf in Hlive. done.
  - intros Hf. rewrite <- Hlen. apply selected_within_N.
    by rewrite Hflag, Hf.
Qed.

Lemma probe_decides_rotation_witness :
  let lb := {| backends := [mkBackend "a" true; mkBackend "b" true];
               current := 1 |} in
  1 < length (backends lb) ∧
  probe_failed (mkProbe false (Some 503%Z)) = true ∧
  Some 1 ∉ (Next_n 5 (checkBackendHealth_at lb 1 (mkProbe false (Some 503%Z))).1).1.
Proof.
  intros lb.
  assert (1 < length (backends lb)) as H1 by (simpl; lia).
  split; [exact H1|]. split; [reflexivity|].
  exact (proj1 (probe_decides_rotation lb 1 (mkProbe false (Some 503%Z)) H1)
               eq_refl 5).
Defined.

(** X4.  The health check is idempotent: a second check with the same
    probe reports nothing and changes nothing, for one backend and for a
    whole tick of the loop. *)
Theorem health_check_idempotent (probe : nat → ProbeResult) (order : list nat)
    (lb : LoadBalancer) (b : Backend) (p : ProbeResult) :
  checkBackendHealth (checkBackendHealth b p).1 p = ((checkBackendHealth b p).1, []) ∧
  run_checks probe order (run_checks probe order lb).1 =
    ((run_checks probe order lb).1, []).
Proof.
  split.
  - rewrite checkBackendHealth_state. unfold checkBackendHealth. simpl.
    by destruct (probe_failed p).
  - apply run_checks_silent. intros idx b' Hin Hb'.
    destruct (run_checks_state probe order lb) as [_ Hl].
    rewrite Hl in Hb'. destruct (backends lb !! idx) as [b0|]; [|done].
    simpl in Hb'. rewrite decide_True in Hb' by done.
    by injection Hb' as <-.
Qed.

(** X5.  The checks of one tick are independent of the order in which
    they run: the balancer afterwards is fixed by the set of slots
    checked; every checked backend is live exactly when its own probe did
    not fail, the others are as before; URLs, the number of backends and
    the cursor never change. *)
Theorem tick_is_order_independent (probe : nat → ProbeResult)
    (order1 order2 : list nat) (lb : LoadBalancer) :
  (∀ i, i ∈ order1 ↔ i ∈ order2) →
  (run_checks probe order1 lb).1 = (run_checks probe order2 lb).1 ∧
  current (run_checks probe order1 lb).1 = current lb ∧
  URL <$> backends (run_checks probe order1 lb).1 = URL <$> backends lb ∧
  ∀ i b, backends lb !! i = Some b →
    ∃ b', backends (run_checks probe order1 lb).1 !! i = Some b' ∧
          Alive b' = if decide (i ∈ order1)
                     then negb (probe_failed (probe i)) else Alive b.
Proof.
  intros Hsame.
  destruct (run_checks_state probe order1 lb) as [Hc1 Hl1].
  destruct (run_checks_state probe order2 lb) as [Hc2 Hl2].
  split; [|split; [done|split]].
  - apply LoadBalancer_eq; [congruence|]. intros i. rewrite Hl1, Hl2.
    destruct (backends lb !! i) as [b|]; simpl; [|done]. f_equal.
    destruct (decide (i ∈ order1)) as [H1|H1], (decide (i ∈ order2)) as [H2|H2];
      try done; exfalso; [apply H2|apply H1]; by apply Hsame.
  - apply list_eq. intros i. rewrite !list_lookup_fmap, Hl1.
    destruct (backends lb !! i) as [b|]; simpl; [|done].
    by destruct (decide (i ∈ order1)).
  - intros i b Hb. rewrite Hl1, Hb. simpl. eexists. split; [done|].
    by destruct (decide (i ∈ order1)).
Qed.

Lemma tick_is_order_independent_witness :
  let lb := {| backends := [mkBackend "a" true; mkBackend "b" false];
               current := 0 |} in
  let probe := λ i : nat, if i =? 0 then mkProbe true None
                          else mkProbe false (Some 200%Z) in
  (run_checks probe [0; 1] lb).1 = (run_checks probe [1; 0] lb).1.
Proof.
  intros lb probe.
  apply (tick_is_order_independent probe [0; 1] [1; 0] lb).
  intros i. rewrite !elem_of_cons. tauto.
Defined.

End HealthChecks.

(** ** The response writer and the health endpoint *)

Lemma writer_written_fixed (calls : list WriterCall) (w : responseWriter) :
  written w = true → fold_left writer_step calls w = w.
Proof.
  intros Hw. induction calls as [|c calls IH]; simpl; [done|].
  destruct c; unfold writer_step, WriteHeader, Write; by rewrite Hw.
Qed.

Lemma captured_status (calls : list WriterCall) :
  statusCode (fold_left writer_step calls
                {| statusCode := StatusOK; written := false |}) =
  match calls with
  | CallWriteHeader sc :: _ => sc
  | _ => StatusOK
  end.
Proof.
  destruct calls as [|[sc|] calls]; simpl; [done| |];
    by rewrite writer_written_fixed.
Qed.

(** X6.  The status the wrapper captures, and the dispatcher logs for a
    proxied request whose proxy call returns, is the status of the first
    [WriteHeader] when the proxy calls it before it writes, and 200
    otherwise: a [WriteHeader] after a [Write] or after another
    [WriteHeader] is ignored. *)
Theorem first_status_is_logged :
  (∀ calls1 sc calls2,
     statusCode (fold_left writer_step (calls1 ++ CallWriteHeader sc :: calls2)
                   {| statusCode := StatusOK; written := false |}) =
     match calls1 with
     | [] => sc
     | CallWriteHeader sc1 :: _ => sc1
     | CallWrite :: _ => StatusOK
     end) ∧
  (∀ (F : Float64) env clk (r : Request.t) (g : @Gateway F) slot,
     Request.Path r ≠ "/health" →
     unauthorized (config g) r = false →
     (Allow (rateLimiter g) (clientIP_of (Request.RemoteAddr r))
            (Request.X_API_Key r) (config g) (t_allow clk)).1 = true →
     (LB.Next (lb g)).1 = Some slot →
     Aborts env slot r = false →
     ∃ e, logged (handleRequest env clk r g).2 = [e] ∧
          LogEntry.StatusCode e =
            match ServeHTTP env slot r with
            | CallWriteHeader sc :: _ => sc
            | _ => StatusOK
            end).
Proof.
  split.
  - intros calls1 sc calls2. rewrite captured_status.
    by destruct calls1 as [|[?|] ?].
  - intros F env clk r g slot Hp Hu Ha Hn Hab.
    destruct (handleRequest_proxied env clk r g slot Hp Hu Ha Hn Hab)
      as (e & -> & Hs & _).
    exists e. split; [done|]. by rewrite Hs, captured_status.
Qed.

Lemma first_status_is_logged_witness :
  let env := {| ServeHTTP := λ _ _, [CallWrite; CallWriteHeader 404%Z];
                Aborts := λ _ _, false;
                RFC3339 := λ _, "2026-01-01T00:00:00Z" |} in
  let r := Example.request "/api/data" "127.0.0.1:5000" EmptyString in
  ∃ e, logged (handleRequest env (Example.clock 0%Z) r Example.gw).2 = [e] ∧
       LogEntry.StatusCode e = 200%Z.
Proof.
  intros env r.
  exact (proj2 first_status_is_logged binary64_Float64 env (Example.clock 0%Z)
           r Example.gw 0 ltac:(discriminate) eq_refl
           ltac:(by vm_compute) ltac:(by vm_compute) eq_refl).
Defined.

Section HealthEndpoint.
Import LB.

Lemma count_healthy_from (bs : list Backend) (n : nat) :
  fold_left (λ healthy b, if Alive b then S healthy else healthy) bs n =
  n + length (filter (λ b, Alive b = true) bs).
Proof.
  revert n. induction bs as [|b bs IH]; intros n; simpl; [lia|].
  rewrite IH, filter_cons.
  case_decide as H; destruct (Alive b); simpl; try done; lia.
Qed.

Lemma live_count_zero (bs : list Backend) :
  length (filter (λ b, Alive b = true) bs) = 0 ↔
  ∀ b, b ∈ bs → Alive b = false.
Proof.
  induction bs as [|b bs IH]; simpl.
  - split; [by intros _ b ?%elem_of_nil|done].
  - rewrite filter_cons. case_decide as Ha.
    + simpl. split; [lia|].
      intros H. specialize (H b ltac:(by left)). congruence.
    + apply not_true_is_false in Ha. rewrite IH. split.
      * intros H b' [->|Hin]%elem_of_cons; [done|by apply H].
      * intros H b' Hin. apply H. by right.
Qed.

Lemma live_count_all (bs : list Backend) :
  length (filter (λ b, Alive b = true) bs) = length bs ↔
  ∀ b, b ∈ bs → Alive b = true.
Proof.
  induction bs as [|b bs IH]; simpl.
  - split; [by intros _ b ?%elem_of_nil|done].
  - rewrite filter_cons. case_decide as Ha.
    + simpl. split.
      * intros [= H]. pose proof (proj1 IH H) as H'.
        intros b' [->|Hin]%elem_of_cons; [done|by apply H'].
      * intros H. f_equal. apply IH. intros b' Hin. apply H. by right.
    + split.
      * intros H. pose proof (length_filter (λ b, Alive b = true) bs). lia.
      * intros H. specialize (H b ltac:(by left)). congruence.
Qed.

(** X7.  [handleHealth] answers 405 to every method but GET; to GET it
    always answers with status ["ok"], the number of live backends and the
    number of backends; the first is at most the second, equal to it
    exactly when every backend is live, and zero exactly when a request
    would find no backend ([Next] returns none). *)
Theorem health_summary (env : Env) (now : Time) (method : string)
    (lb : LoadBalancer) :
  (method ≠ "GET" →
   handleHealth env now method lb =
     ReplyError "Method not allowed" StatusMethodNotAllowed) ∧
  (method = "GET" →
   let healthy := length (filter (λ b, Alive b = true) (backends lb)) in
   handleHealth env now method lb =
     ReplySummary "ok" healthy (length (backends lb)) (RFC3339 env now) ∧
   healthy ≤ length (backends lb) ∧
   (healthy = length (backends lb) ↔ ∀ b, b ∈ backends lb → Alive b = true) ∧
   (healthy = 0 ↔ (Next lb).1 = None)).
Proof.
  unfold handleHealth. split.
  - intros Hm. by rewrite (proj2 (String.eqb_neq _ _) Hm).
  - intros ->. simpl. unfold count_healthy. rewrite count_healthy_from. simpl.
    split; [done|]. split; [apply length_filter|].
    split; [apply live_count_all|].
    rewrite live_count_zero. symmetry. apply Next_None_all_dead.
Qed.

Lemma health_summary_witness :
  handleHealth Example.env 0%Z "GET" (lb Example.gw) =
    ReplySummary "ok" 2 2 "2026-01-01T00:00:00Z" ∧
  handleHealth Example.env 0%Z "POST" (lb Example.gw) =
    ReplyError "Method not allowed" 405%Z.
Proof.
  split.
  - exact (proj1 (proj2 (health_summary Example.env 0%Z "GET" (lb Example.gw))
                        eq_refl)).
  - exact (proj1 (health_summary Example.env 0%Z "POST" (lb Example.gw))
                 ltac:(discriminate)).
Defined.

End HealthEndpoint.

(** ** The rate limiter and its identities *)

Section RateLimiterFrame.
Context `{F : Float64}.

Lemma tryConsume_keeps_parameters (tb : TokenBucket) (now : Time) :
  capacity (tryConsume tb now).2 = capacity tb ∧
  refillRate (tryConsume tb now).2 = refillRate tb ∧
  lastRefill (tryConsume tb now).2 = now.
Proof. by destruct (tryConsume_cases tb now) as [[-> _]|[-> _]]. Qed.

Lemma Allow_cases (rl : RateLimiter) (ip key : string) (config : Config)
    (t : Readings) :
  let ip_try :=
    tryConsume (lookup_or_new (ipLimits rl) ip (RateLimitPerIP config)
                  (t_ip_new t)) (t_ip t) in
  let key_try :=
    tryConsume (lookup_or_new (keyLimits rl) key (RateLimitPerKey config)
                  (t_key_new t)) (t_key t) in
  Allow rl ip key config t =
    if ip_try.1 && negb (String.eqb key EmptyString)
    then (key_try.1,
          {| ipLimits := <[ip := ip_try.2]> (ipLimits rl);
             keyLimits := <[key := key_try.2]> (keyLimits rl) |})
    else (ip_try.1,
          {| ipLimits := <[ip := ip_try.2]> (ipLimits rl);
             keyLimits := keyLimits rl |}).
Proof.
  simpl. unfold Allow. rewrite allowIP_tryConsume.
  destruct (tryConsume _ _) as [ok_ip b_ip]. simpl.
  destruct ok_ip; simpl; [|done].
  destruct (String.eqb key EmptyString); simpl; [done|].
  rewrite allowKey_tryConsume. simpl.
  by destruct (tryConsume _ _) as [[|] b_key].
Qed.

(** X8.  [Allow] touches the buckets of its own identities only: every
    other IP and every other key keeps its bucket; no bucket is ever
    removed; the IP gets a bucket if it had none, and the key gets one
    exactly when the IP bucket allowed and the key is not empty. *)
Theorem Allow_touches_only_its_identities (rl : RateLimiter) (ip key : string)
    (config : Config) (t : Readings) :
  let res := Allow rl ip key config t in
  let ip_ok :=
    (tryConsume (lookup_or_new (ipLimits rl) ip (RateLimitPerIP config)
                   (t_ip_new t)) (t_ip t)).1 in
  (∀ ip', ip' ≠ ip → ipLimits res.2 !! ip' = ipLimits rl !! ip') ∧
  (∀ key', key' ≠ key → keyLimits res.2 !! key' = keyLimits rl !! key') ∧
  dom (ipLimits res.2) = {[ip]} ∪ dom (ipLimits rl) ∧
  dom (keyLimits res.2) =
    (if ip_ok && negb (String.eqb key EmptyString)
     then {[key]} ∪ dom (keyLimits rl) else dom (keyLimits rl)).
Proof.
  intros res ip_ok. subst res. rewrite Allow_cases. fold ip_ok.
  destruct (ip_ok && negb (String.eqb key EmptyString)); simpl.
  - split; [intros ip' Hne; by rewrite lookup_insert_ne|].
    split; [intros key' Hne; by rewrite lookup_insert_ne|].
    by rewrite !dom_insert_L.
  - split; [intros ip' Hne; by rewrite lookup_insert_ne|].
    split; [done|]. by rewrite dom_insert_L.
Qed.

(** X9.  The limit counts only when a bucket is created: for an identity
    that has a bucket, [allowIP] gives the same answer and the same state
    whatever the limit (and the reading for the creation) it is called
    with, and the capacity and refill rate of the bucket stay as they
    were. *)
Theorem existing_bucket_ignores_limit (rl : RateLimiter) (ip : string)
    (b : TokenBucket) (limit limit' : Z) (t_new t_new' t_now : Time) :
  ipLimits rl !! ip = Some b →
  allowIP rl ip limit t_new t_now = allowIP rl ip limit' t_new' t_now ∧
  ∃ b', ipLimits (allowIP rl ip limit t_new t_now).2 !! ip = Some b' ∧
        capacity b' = capacity b ∧ refillRate b' = refillRate b.
Proof.
  intros Hb. rewrite !allowIP_tryConsume. unfold lookup_or_new. rewrite Hb.
  split; [done|]. simpl. eexists. rewrite lookup_insert_eq. split; [done|].
  by destruct (tryConsume_keeps_parameters b t_now) as (-> & -> & _).
Qed.

(** X10.  The IP bucket is charged before the key is looked at: when the
    IP bucket allows and the key bucket denies, [Allow] answers false and
    the IP bucket has still lost its token. *)
Theorem key_denial_still_charges_ip (rl : RateLimiter) (ip key : string)
    (config : Config) (t : Readings) :
  let ip_bucket :=
    lookup_or_new (ipLimits rl) ip (RateLimitPerIP config) (t_ip_new t) in
  let key_bucket :=
    lookup_or_new (keyLimits rl) key (RateLimitPerKey config) (t_key_new t) in
  key ≠ EmptyString →
  (tryConsume ip_bucket (t_ip t)).1 = true →
  (tryConsume key_bucket (t_key t)).1 = false →
  (Allow rl ip key config t).1 = false ∧
  ipLimits (Allow rl ip key config t).2 !! ip =
    Some (decrement (refill ip_bucket (t_ip t))) ∧
  keyLimits (Allow rl ip key config t).2 !! key =
    Some (refill key_bucket (t_key t)).
Proof.
  intros ip_bucket key_bucket Hk Hip Hkey. rewrite Allow_cases.
  fold ip_bucket key_bucket. rewrite Hip.
  rewrite (proj2 (String.eqb_neq _ _) Hk). simpl.
  rewrite Hkey, !lookup_insert_eq. split; [done|].
  destruct (tryConsume_cases ip_bucket (t_ip t)) as [[Hi _]|[Hi _]];
    rewrite Hi in Hip |- *; [|done].
  destruct (tryConsume_cases key_bucket (t_key t)) as [[Hc _]|[Hc _]];
    rewrite Hc in Hkey |- *; done.
Qed.

End RateLimiterFrame.

Lemma existing_bucket_ignores_limit_witness :
  let rl := (Allow (F := binary64_Float64)
               {| ipLimits := ∅; keyLimits := ∅ |} "10.0.0.1" EmptyString
               Example.cfg (t_allow (Example.clock 0%Z))).2 in
  allowIP rl "10.0.0.1" 100%Z 7%Z 9%Z = allowIP rl "10.0.0.1" 1%Z 8%Z 9%Z.
Proof.
  intros rl.
  assert (∃ b, ipLimits rl !! "10.0.0.1" = Some b) as [b Hb]
    by (eexists; by vm_compute).
  exact (proj1 (existing_bucket_ignores_limit rl "10.0.0.1" b
                  100%Z 1%Z 7%Z 8%Z 9%Z Hb)).
Defined.

Lemma key_denial_still_charges_ip_witness :
  let cfg := {| Port := 8080; Backends := []; RateLimitPerIP := 100;
                RateLimitPerKey := 0; HealthCheckInterval := 0;
                APIKeys := ∅ |}%Z in
  let rl := {| ipLimits := ∅; keyLimits := ∅ |} : @RateLimiter binary64_Float64 in
  let res := Allow rl "10.0.0.1" "key-admin" cfg (t_allow (Example.clock 0%Z)) in
  res.1 = false ∧
  @tokens binary64_Float64 <$> ipLimits res.2 !! "10.0.0.1" =
    Some (binary64_of_int 99).
Proof.
  intros cfg rl res.
  destruct (key_denial_still_charges_ip rl "10.0.0.1" "key-admin" cfg
              (t_allow (Example.clock 0%Z)) ltac:(discriminate)
              ltac:(by vm_compute) ltac:(by vm_compute)) as (H1 & H2 & _).
  split; [exact H1|]. subst res. rewrite H2. by vm_compute.
Defined.

(** ** The dispatcher over many requests *)

Section DispatcherExits.
Context `{F : Float64}.
Variable env : Env.

Lemma base_entry_fields (clk : Clock) (r : Request.t) :
  LogEntry.Path (base_entry env clk r) = Request.Path r ∧
  LogEntry.Method (base_entry env clk r) = Request.Method r ∧
  LogEntry.APIKey (base_entry env clk r) = Request.X_API_Key r ∧
  LogEntry.ClientIP (base_entry env clk r) = clientIP_of (Request.RemoteAddr r) ∧
  LogEntry.Backend (base_entry env clk r) = EmptyString ∧
  LogEntry.ResponseTime (base_entry env clk r) = EmptyString.
Proof.
  unfold base_entry.
  destruct (String.eqb_spec (Request.X_API_Key r) EmptyString) as [->|Hk];
    by simpl.
Qed.

(** The exits of [handleRequest], written out: the three refusals, the
    proxy call that returns and the proxy call that panics. *)
Lemma handleRequest_exits (clk : Clock) (r : Request.t) (g : Gateway) :
  Request.Path r ≠ "/health" →
  let a := Allow (rateLimiter g) (clientIP_of (Request.RemoteAddr r))
             (Request.X_API_Key r) (config g) (t_allow clk) in
  let n := LB.Next (lb g) in
  let reply e rl' lb' trace :=
    (Returned tt, {| config := config g; lb := lb'; rateLimiter := rl';
                     logger := logger g ++ [e] |}, trace) in
  handleRequest env clk r g =
    if unauthorized (config g) r then
      let e := error_entry env clk r StatusUnauthorized "invalid API key" in
      reply e (rateLimiter g) (lb g)
        [EvLog e; EvHttpError "Unauthorized: invalid API key" StatusUnauthorized]
    else if negb a.1 then
      let e := error_entry env clk r StatusTooManyRequests "rate limit exceeded" in
      reply e a.2 (lb g)
        [EvAllow (clientIP_of (Request.RemoteAddr r)) (Request.X_API_Key r);
         EvLog e; EvHttpError "Rate limit exceeded" StatusTooManyRequests]
    else match n.1 with
    | None =>
      let e := error_entry env clk r StatusServiceUnavailable
                 "no healthy backends available" in
      reply e a.2 n.2
        [EvAllow (clientIP_of (Request.RemoteAddr r)) (Request.X_API_Key r);
         EvNext; EvLog e;
         EvHttpError "Service unavailable" StatusServiceUnavailable]
    | Some slot =>
      let url := match backends n.2 !! slot with
                 | Some b => URL b
                 | None => EmptyString
                 end in
      let wrapped := fold_left writer_step (ServeHTTP env slot r)
                       {| statusCode := StatusOK; written := false |} in
      let e :=
        LogEntry.set_ResponseTime
          (Sprintf_2f_int64
             (Duration_Milliseconds (Time_Sub (t_end clk) (t_start clk))))
          (LogEntry.set_StatusCode (statusCode wrapped)
             (LogEntry.set_Backend url (base_entry env clk r))) in
      if Aborts env slot r then
        (Panicked, {| config := config g; lb := n.2; rateLimiter := a.2;
                      logger := logger g |},
         [EvAllow (clientIP_of (Request.RemoteAddr r)) (Request.X_API_Key r);
          EvNext; EvServeHTTP slot])
      else
        reply e a.2 n.2
          [EvAllow (clientIP_of (Request.RemoteAddr r)) (Request.X_API_Key r);
           EvNext; EvServeHTTP slot; EvLog e]
    end.
Proof.
  intros Hp a n reply.
  unfold handleRequest, bind, read_APIKeys, call_Allow, call_Next, read_URL,
    call_ServeHTTP, call_Log, call_httpError.
  rewrite (proj2 (String.eqb_neq _ _) Hp).
  unfold unauthorized, error_entry, base_entry, reply.
  destruct (negb (String.eqb (Request.X_API_Key r) EmptyString) &&
            negb (default false (APIKeys (config g) !! Request.X_API_Key r)));
    [done|].
  simpl. fold a. destruct a as [ok rl']. simpl.
  destruct ok; simpl; [|done].
  fold n. destruct n as [[slot|] lb']; simpl; [|done].
  by destruct (Aborts env slot r).
Qed.

End DispatcherExits.

Section ManyRequests.
Context `{F : Float64}.
Variable env : Env.

Lemma logged_app (tr1 tr2 : list Event) :
  logged (tr1 ++ tr2) = logged tr1 ++ logged tr2.
Proof. unfold logged. apply omap_app. Qed.

Lemma calls_Allow_app (tr1 tr2 : list Event) :
  calls_Allow (tr1 ++ tr2) = calls_Allow tr1 || calls_Allow tr2.
Proof. unfold calls_Allow. apply existsb_app. Qed.

(** What one request does to the gateway, whatever its path. *)
Lemma handleRequest_step (clk : Clock) (r : Request.t) (g : Gateway) :
  let o := (handleRequest env clk r g).1.1 in
  let g' := (handleRequest env clk r g).1.2 in
  let tr := (handleRequest env clk r g).2 in
  config g' = config g ∧
  backends (lb g') = backends (lb g) ∧
  logger g' = logger g ++ logged tr ∧
  LogEntry.Path <$> logged tr =
    (if decide (Request.Path r ≠ "/health")
     then if returned o then [Request.Path r] else []
     else []).
Proof.
  simpl. destruct (decide (Request.Path r ≠ "/health")) as [Hp|Hp].
  - rewrite (handleRequest_exits env clk r g Hp).
    destruct (base_entry_fields env clk r) as (Hpath & _).
    destruct (Next_result (lb g)) as (Hb & _).
    destruct (unauthorized (config g) r); simpl; [by rewrite Hpath|].
    destruct (negb _); simpl; [by rewrite Hpath|].
    destruct (LB.Next (lb g)).1 as [slot|]; simpl; [|by rewrite Hpath].
    destruct (Aborts env slot r); simpl; [by rewrite app_nil_r|].
    by rewrite Hpath.
  - apply dec_stable in Hp. rewrite (handleRequest_health env clk r g Hp).
    simpl. by rewrite app_nil_r.
Qed.

(** A handler panics only in the proxy call. *)
Lemma handleRequest_returns (clk : Clock) (r : Request.t) (g : Gateway) :
  (∀ slot r, Aborts env slot r = false) →
  returned (handleRequest env clk r g).1.1 = true.
Proof.
  intros Hab. destruct (decide (Request.Path r ≠ "/health")) as [Hp|Hp].
  - rewrite (handleRequest_exits env clk r g Hp).
    destruct (unauthorized (config g) r); simpl; [done|].
    destruct (negb _); simpl; [done|].
    destruct (LB.Next (lb g)).1 as [slot|]; simpl; [|done].
    by rewrite Hab.
  - apply dec_stable in Hp. by rewrite (handleRequest_health env clk r g Hp).
Qed.

(** X12.  Over any sequence of requests the log only grows: what was
    logged stays, and one entry is appended for each request that is not
    for [/health] and whose handler returns, in the order of the requests
    and with its path; a request whose proxy call panics leaves none.
    When no proxy call panics, every handler returns.  Handling requests
    never changes the configuration, nor the list of backends, their
    addresses or their liveness flags. *)
Theorem serve_appends_one_entry_per_request
    (reqs : list (Clock * Request.t)) (g : Gateway) :
  let g' := (serve env reqs g).1 in
  let tr := (serve env reqs g).2 in
  config g' = config g ∧
  backends (lb g') = backends (lb g) ∧
  logger g' = logger g ++ logged tr ∧
  LogEntry.Path <$> logged tr = proxied_paths (completed env reqs g) ∧
  ((∀ slot r, Aborts env slot r = false) → completed env reqs g = reqs).
Proof.
  revert g. induction reqs as [|[clk r] reqs IH]; intros g; simpl.
  { by rewrite app_nil_r. }
  destruct (handleRequest_step clk r g) as (Hc & Hb & Hl & Hp).
  pose proof (handleRequest_returns clk r g) as Hret.
  destruct (handleRequest env clk r g) as [[o g1] tr1]. simpl in *.
  destruct (IH g1) as (Hc' & Hb' & Hl' & Hp' & Hall).
  destruct (serve env reqs g1) as [g2 tr2]. simpl in *.
  split; [congruence|]. split; [congruence|].
  rewrite logged_app. split; [by rewrite Hl', Hl, app_assoc|].
  split.
  - rewrite fmap_app, Hp, Hp'. unfold proxied_paths.
    rewrite fmap_app, filter_app, fmap_app. f_equal.
    destruct (returned o); simpl; [|by destruct (decide _)].
    rewrite filter_cons. by destruct (decide (Request.Path r ≠ "/health")).
  - intros Hab. rewrite (Hret Hab), (Hall Hab). done.
Qed.

(** X13.  Requests with a key that is not accepted are not metered: any
    number of them leaves every token bucket and the load balancer as
    they were and never reaches the rate limiter; each is logged with
    status 401. *)
Theorem unauthorized_requests_are_not_metered
    (reqs : list (Clock * Request.t)) (g : Gateway) :
  (∀ cr, cr ∈ reqs →
     Request.Path cr.2 ≠ "/health" ∧ unauthorized (config g) cr.2 = true) →
  let g' := (serve env reqs g).1 in
  let tr := (serve env reqs g).2 in
  rateLimiter g' = rateLimiter g ∧
  lb g' = lb g ∧
  calls_Allow tr = false ∧
  LogEntry.StatusCode <$> logged tr = replicate (length reqs) StatusUnauthorized.
Proof.
  revert g. induction reqs as [|[clk r] reqs IH]; intros g H; simpl; [done|].
  destruct (H (clk, r) ltac:(by left)) as [Hp Hu]. simpl in Hp, Hu.
  rewrite (handleRequest_exits env clk r g Hp), Hu. simpl.
  set (g1 := {| config := config g; lb := lb g; rateLimiter := rateLimiter g;
                logger := logger g ++ _ |}).
  destruct (IH g1) as (Hr & Hlb & Hcalls & Hcodes).
  { intros cr Hin. apply (H cr). by right. }
  destruct (serve env reqs g1) as [g2 tr2]. simpl in *.
  repeat split; [done..|]. f_equal. exact Hcodes.
Qed.

(** X14.  When the gateway itself refuses a request, the status it logs
    is the status it sends (401, 429 or 503), the entry carries a reason
    and neither a backend nor a response time, and no proxy was called.
    A request refused with 503 had passed the rate limiter: its token is
    spent although it was not served. *)
Theorem refusals_are_logged_as_sent (clk : Clock) (r : Request.t) (g : Gateway)
    (msg : string) (code : Z) :
  Request.Path r ≠ "/health" →
  let g' := (handleRequest env clk r g).1.2 in
  let tr := (handleRequest env clk r g).2 in
  let a := Allow (rateLimiter g) (clientIP_of (Request.RemoteAddr r))
             (Request.X_API_Key r) (config g) (t_allow clk) in
  EvHttpError msg code ∈ tr →
  (∃ e, logged tr = [e] ∧
        LogEntry.StatusCode e = code ∧
        LogEntry.Error e ≠ EmptyString ∧
        LogEntry.Backend e = EmptyString ∧
        LogEntry.ResponseTime e = EmptyString) ∧
  calls_ServeHTTP tr = false ∧
  (code = StatusUnauthorized ∨ code = StatusTooManyRequests ∨
   code = StatusServiceUnavailable) ∧
  (code = StatusServiceUnavailable → a.1 = true ∧ rateLimiter g' = a.2).
Proof.
  intros Hp g' tr a. subst g' tr.
  rewrite (handleRequest_exits env clk r g Hp). fold a.
  destruct (base_entry_fields env clk r) as (_ & _ & _ & _ & Hb & Ht).
  destruct (unauthorized (config g) r); simpl.
  { intros [[=]|[[= -> ->]|[]%elem_of_nil]%elem_of_cons]%elem_of_cons.
    split; [eexists; by repeat split|]. split; [done|]. split; [by left|done]. }
  destruct a.1 eqn:Ha; simpl.
  2:{ intros [[=]|[[=]|[[= -> ->]|[]%elem_of_nil]%elem_of_cons]%elem_of_cons]%elem_of_cons.
      split; [eexists; by repeat split|]. split; [done|].
      split; [right; by left|done]. }
  destruct (LB.Next (lb g)).1 as [slot|]; simpl.
  - destruct (Aborts env slot r); simpl.
    + intros [[=]|[[=]|[[=]|[]%elem_of_nil]%elem_of_cons]%elem_of_cons]%elem_of_cons.
    + intros [[=]|[[=]|[[=]|[[=]|[]%elem_of_nil]%elem_of_cons]%elem_of_cons]%elem_of_cons]%elem_of_cons.
  - intros [[=]|[[=]|[[=]|[[= -> ->]|[]%elem_of_nil]%elem_of_cons]%elem_of_cons]%elem_of_cons]%elem_of_cons.
    split; [eexists; by repeat split|]. split; [done|].
    split; [right; by right|done].
Qed.

End ManyRequests.

Lemma unauthorized_requests_are_not_metered_witness :
  let reqs := [(Example.clock 0%Z, Example.request "/api/data" "10.0.0.1:1" "bogus");
               (Example.clock 1%Z, Example.request "/api/user" "10.0.0.1:2" "guess")] in
  rateLimiter (serve Example.env reqs Example.gw).1 = rateLimiter Example.gw ∧
  lb (serve Example.env reqs Example.gw).1 = lb Example.gw.
Proof.
  intros reqs.
  assert (∀ cr, cr ∈ reqs →
            Request.Path cr.2 ≠ "/health" ∧
            unauthorized (config Example.gw) cr.2 = true) as H.
  { intros cr Hin. unfold reqs in Hin. rewrite !elem_of_cons in Hin.
    destruct Hin as [->|[->|Hin]]; [by split..|]. by apply elem_of_nil in Hin. }
  destruct (unauthorized_requests_are_not_metered Example.env reqs Example.gw H)
    as (H1 & H2 & _).
  split; [exact H1|exact H2].
Defined.

Lemma refusals_are_logged_as_sent_witness :
  let r := Example.request "/api/data" "10.0.0.1:1" "bogus" in
  let tr := (handleRequest Example.env (Example.clock 0%Z) r Example.gw).2 in
  Request.Path r ≠ "/health" ∧
  EvHttpError "Unauthorized: invalid API key" 401%Z ∈ tr ∧
  calls_ServeHTTP tr = false.
Proof.
  intros r tr.
  assert (Request.Path r ≠ "/health") as Hp by discriminate.
  assert (EvHttpError "Unauthorized: invalid API key" 401%Z ∈ tr) as Hin.
  { unfold tr. vm_compute. apply elem_of_cons. right. apply elem_of_cons. by left. }
  destruct (refusals_are_logged_as_sent Example.env (Example.clock 0%Z) r
              Example.gw _ _ Hp Hin) as (_ & H2 & _).
  split; [exact Hp|]. split; [exact Hin|exact H2].
Defined.

(** ** Building the gateway *)

Section Construction.
Context `{F : Float64}.
Import LB.

Lemma init_backends_spec (parse : string → option string) (urls : list string)
    (acc : list Backend) :
  match init_backends parse urls acc with
  | inl bs =>
      (∀ u, u ∈ urls → is_Some (parse u)) ∧
      bs = acc ++ ((λ u, {| URL := default EmptyString (parse u);
                            Alive := true |}) <$> urls)
  | inr bad =>
      ∃ pre post, urls = pre ++ bad :: post ∧ parse bad = None ∧
                  ∀ u, u ∈ pre → is_Some (parse u)
  end.
Proof.
  revert acc. induction urls as [|u urls IH]; intros acc; simpl.
  { split; [by intros u ?%elem_of_nil|by rewrite app_nil_r]. }
  destruct (parse u) as [pu|] eqn:Hu.
  - specialize (IH (acc ++ [{| URL := pu; Alive := true |}])).
    destruct (init_backends parse urls _) as [bs|bad].
    + destruct IH as [Hall ->]. split.
      * intros v [->|Hin]%elem_of_cons; [by rewrite Hu|by apply Hall].
      * by rewrite <- app_assoc.
    + destruct IH as (pre & post & -> & Hbad & Hpre).
      exists (u :: pre), post. split; [done|]. split; [done|].
      intros v [->|Hin]%elem_of_cons; [by rewrite Hu|by apply Hpre].
  - exists [], urls. split; [done|]. split; [done|]. by intros v ?%elem_of_nil.
Qed.

(** X15.  [NewGateway] succeeds exactly when every configured URL parses
    and the log file opens.  The gateway then has one backend for each
    URL, in the order of the configuration and all live, the cursor at
    the first, no buckets, and a log that holds what the file held before
    (it is opened for appending), so that its first selections walk the
    configured backends in order; otherwise the error names the first URL
    that does not parse, or the log file. *)
Theorem NewGateway_result (parse : string → option string)
    (log_file : option (list LogEntry.t)) (cfg : Config) :
  match NewGateway parse log_file cfg with
  | inl g =>
      (∀ u, u ∈ Backends cfg → is_Some (parse u)) ∧
      log_file = Some (logger g) ∧
      config g = cfg ∧
      backends (lb g) =
        (λ u, {| URL := default EmptyString (parse u); Alive := true |})
          <$> Backends cfg ∧
      current (lb g) = 0 ∧
      rateLimiter g = {| ipLimits := ∅; keyLimits := ∅ |} ∧
      (∀ M j, j < M → Backends cfg ≠ [] →
         (Next_n M (lb g)).1 !! j = Some (Some (j mod length (Backends cfg))))
  | inr (InvalidBackendURL bad) =>
      ∃ pre post, Backends cfg = pre ++ bad :: post ∧ parse bad = None ∧
                  ∀ u, u ∈ pre → is_Some (parse u)
  | inr OpenLogFailed =>
      (∀ u, u ∈ Backends cfg → is_Some (parse u)) ∧ log_file = None
  end.
Proof.
  unfold NewGateway.
  pose proof (init_backends_spec parse (Backends cfg) []) as Hinit.
  destruct (init_backends parse (Backends cfg) []) as [bs|bad]; [|done].
  destruct Hinit as [Hall ->]. simpl.
  destruct log_file as [held|]; [|done]. simpl.
  repeat split; try done.
  intros M j Hj Hne.
  set (lb0 := {| backends := _; current := 0 |}).
  assert (backends lb0 ≠ []) as Hne0.
  { simpl. intros E. apply fmap_nil_inv in E. done. }
  rewrite (Next_n_all_alive M lb0 Hne0).
  - rewrite cycle_lookup by done. simpl. by rewrite length_fmap.
  - simpl. intros b (u & -> & _)%list_elem_of_fmap. done.
Qed.

End Construction.

(** ** The command line *)

Lemma Split_length (s : string) (sep : ascii) :
  length (Split s sep) = S (count_byte sep s).
Proof.
  induction s as [|a s IH]; simpl; [done|].
  destruct (Ascii.eqb a sep); simpl; [by rewrite IH|].
  destruct (Split s sep); simpl in *; done.
Qed.

Lemma Split_pieces (s : string) (sep : ascii) (w : string) :
  w ∈ Split s sep → no_byte sep w = true.
Proof.
  revert w. induction s as [|a s IH]; intros w; simpl.
  - by intros ->%list_elem_of_singleton.
  - destruct (Ascii.eqb a sep) eqn:Ha.
    + intros [->|Hin]%elem_of_cons; [done|by apply IH].
    + destruct (Split s sep) as [|w0 ws].
      * intros ->%list_elem_of_singleton. simpl. by rewrite Ha.
      * intros [->|Hin]%elem_of_cons.
        -- simpl. rewrite Ha. simpl. apply IH. by left.
        -- apply IH. by right.
Qed.

Lemma Join_Split (s : string) (sep : ascii) : Join (Split s sep) sep = s.
Proof.
  induction s as [|a s IH]; simpl; [done|].
  pose proof (Split_nonempty s sep) as Hne.
  destruct (Ascii.eqb_spec a sep) as [->|Ha].
  - destruct (Split s sep) as [|w ws]; [done|].
    change (String sep (Join (w :: ws) sep) = String sep s). by rewrite IH.
  - destruct (Split s sep) as [|w ws]; [done|].
    destruct ws as [|w' ws].
    + simpl in *. by rewrite IH.
    + change (String a (Join (w :: w' :: ws) sep) = String a s). by rewrite IH.
Qed.

Lemma Split_head_prefix (s : string) (sep : ascii) (w : string) (ws : list string) :
  Split s sep = w :: ws → String.prefix w s = true.
Proof.
  revert w ws. induction s as [|a s IH]; intros w ws; simpl.
  - by intros [= <- <-].
  - destruct (Ascii.eqb a sep).
    + by intros [= <- <-].
    + destruct (Split s sep) as [|w0 ws0] eqn:Hs.
      * by destruct (Split_nonempty s sep).
      * intros [= <- <-]. simpl.
        destruct (ascii_dec a a) as [_|Hn]; [|by destruct Hn].
        by eapply IH.
Qed.

(** X16.  The configuration [runGateway] builds always has at least one
    backend: one more than there are commas in the [-backends] flag; no
    address contains a comma, and the addresses joined by commas are the
    flag again.  The keys it accepts are exactly [key-test-1],
    [key-test-2] and [key-admin]: a request is unauthorized iff it carries
    a key that is none of these. *)
Theorem runGateway_config_backends_and_keys (port : Z) (backendsStr : string)
    (rateLimit keyRateLimit : Z) (r : Request.t) :
  let cfg := runGateway_config port backendsStr rateLimit keyRateLimit in
  length (Backends cfg) = S (count_byte "," backendsStr) ∧
  (∀ u, u ∈ Backends cfg → no_byte "," u = true) ∧
  Join (Backends cfg) "," = backendsStr ∧
  RateLimitPerIP cfg = rateLimit ∧ RateLimitPerKey cfg = keyRateLimit ∧
  (unauthorized cfg r = true ↔
   Request.X_API_Key r ∉ [EmptyString; "key-test-1"; "key-test-2"; "key-admin"]).
Proof.
  simpl. split; [apply Split_length|]. split; [apply Split_pieces|].
  split; [apply Join_Split|]. split; [done|]. split; [done|].
  unfold unauthorized. simpl. rewrite !elem_of_cons, elem_of_nil.
  destruct (String.eqb_spec (Request.X_API_Key r) EmptyString) as [->|H0];
    simpl; [split; [done|intros Hx; exfalso; apply Hx; by left]|].
  rewrite !lookup_insert. repeat case_decide; simpl.
  - split; [done|]. intros Hx. exfalso. apply Hx. right. right. right. by left.
  - split; [done|]. intros Hx. exfalso. apply Hx. right. right. by left.
  - split; [done|]. intros Hx. exfalso. apply Hx. right. by left.
  - split; [|done]. intros _ [?|[?|[?|[?|[]]]]]; congruence.
Qed.

(** X17.  The client identity is always a prefix of the peer address
    without a colon in it; it is the whole address exactly when the
    address has no colon, and deriving it again changes nothing. *)
Theorem clientIP_is_colon_free_prefix (remoteAddr : string) :
  no_byte ":" (clientIP_of remoteAddr) = true ∧
  String.prefix (clientIP_of remoteAddr) remoteAddr = true ∧
  (clientIP_of remoteAddr = remoteAddr ↔ no_byte ":" remoteAddr = true) ∧
  clientIP_of (clientIP_of remoteAddr) = clientIP_of remoteAddr.
Proof.
  assert (no_byte ":" (clientIP_of remoteAddr) = true) as Hfree.
  { unfold clientIP_of. destruct (Split remoteAddr ":") as [|w ws] eqn:Hs; [done|].
    apply (Split_pieces remoteAddr ":"). rewrite Hs. by left. }
  split; [done|]. split; [|split].
  - unfold clientIP_of. destruct (Split remoteAddr ":") as [|w ws] eqn:Hs.
    + by destruct remoteAddr.
    + by eapply Split_head_prefix.
  - split; [by intros <-|].
    intros H. unfold clientIP_of. by rewrite Split_no_sep.
  - unfold clientIP_of at 1. by rewrite Split_no_sep.
Qed.

(** ** Round robin among the live backends *)

Section LiveRotation.
Import LB.

Lemma scan_is_first_live (bs : list Backend) (c i fuel : nat) :
  bs ≠ [] →
  scan bs c i fuel =
  head (filter (λ idx, alive_at bs idx = true)
               ((λ j, (c + j) mod length bs) <$> seq i fuel)).
Proof.
  intros Hne. revert i. induction fuel as [|fuel IH]; intros i; [done|].
  cbn [scan seq]. rewrite fmap_cons, filter_cons.
  destruct (lookup_lt_is_Some_2 bs ((c + i) mod length bs)) as [b Hb].
  { apply Nat.mod_upper_bound. by apply length_pos. }
  assert (alive_at bs ((c + i) mod length bs) = Alive b) as Ha
    by (unfold alive_at; by rewrite Hb).
  rewrite Hb. case_decide as Hd; rewrite Ha in Hd; destruct (Alive b);
    done.
Qed.

Lemma filter_all_dead (bs : list Backend) (c a k : nat) :
  (∀ j, a ≤ j < a + k → alive_at bs ((c + j) mod length bs) = false) →
  filter (λ idx, alive_at bs idx = true)
         ((λ j, (c + j) mod length bs) <$> seq a k) = [].
Proof.
  revert a. induction k as [|k IH]; intros a H; [done|].
  cbn [seq]. rewrite fmap_cons, filter_cons.
  rewrite decide_False by (rewrite H; [done|lia]).
  apply IH. intros j Hj. apply H. lia.
Qed.

Lemma scan_order_shift (bs : list Backend) (c k n : nat) :
  (λ j, (((c + k) mod length bs + 1) mod length bs + j) mod length bs) <$> seq 0 n =
  (λ j, (c + j) mod length bs) <$> seq (k + 1) n.
Proof.
  replace (seq (k + 1) n) with (Nat.add (k + 1) <$> seq 0 n)
    by (rewrite fmap_add_seq; f_equal; lia).
  rewrite <- list_fmap_compose.
  apply list_fmap_ext. intros _ j _. simpl.
  rewrite Nat.Div0.add_mod_idemp_l, <- Nat.add_assoc, Nat.Div0.add_mod_idemp_l.
  f_equal. lia.
Qed.

Lemma scan_order_wrap (bs : list Backend) (c n : nat) :
  (λ j, (c + j) mod length bs) <$> seq (length bs) n =
  (λ j, (c + j) mod length bs) <$> seq 0 n.
Proof.
  replace (seq (length bs) n) with (Nat.add (length bs) <$> seq 0 n)
    by (rewrite fmap_add_seq; f_equal; lia).
  rewrite <- list_fmap_compose.
  apply list_fmap_ext. intros _ j _. simpl.
  replace (c + (length bs + j)) with (c + j + 1 * length bs) by lia.
  by rewrite Nat.Div0.mod_add.
Qed.

(** One call of [Next] takes the first of the live slots in scan order
    and leaves the same slots, the one taken now last. *)
Lemma Next_rotates (lb : LoadBalancer) :
  match live_order lb with
  | [] => Next lb = (None, lb)
  | idx :: rest =>
      (Next lb).1 = Some idx ∧
      backends (Next lb).2 = backends lb ∧
      live_order (Next lb).2 = rest ++ [idx]
  end.
Proof.
  destruct (decide (backends lb = [])) as [He|Hne].
  { unfold live_order, scan_order, Next. by rewrite He. }
  unfold live_order, scan_order.
  rewrite (Next_unfold lb Hne), (scan_is_first_live _ _ _ _ Hne).
  set (P := λ idx, alive_at (backends lb) idx = true).
  set (f := λ j, (current lb + j) mod length (backends lb)).
  destruct (filter P (f <$> seq 0 (length (backends lb)))) as [|idx rest] eqn:HW;
    [done|].
  simpl. split; [done|]. split; [done|].
  pose proof (scan_is_first_live (backends lb) (current lb) 0
                (length (backends lb)) Hne) as Hs.
  fold P f in Hs. rewrite HW in Hs. simpl in Hs.
  apply scan_Some in Hs as (k & Hk & -> & Hlive & Hdead).
  fold (f k) in *. fold P.
  assert (filter P (f <$> seq 0 k) = []) as Hpre.
  { apply filter_all_dead. intros j Hj. apply Hdead. lia. }
  assert (rest = filter P (f <$> seq (k + 1) (length (backends lb) - (k + 1))))
    as Hrest.
  { replace (length (backends lb))
      with (k + (1 + (length (backends lb) - (k + 1)))) in HW at 1 by lia.
    rewrite !seq_app, !fmap_app, !filter_app, Hpre in HW. simpl in HW.
    rewrite filter_cons, decide_True in HW by done.
    rewrite filter_nil in HW. simpl in HW. by injection HW as <-. }
  unfold f at 1. rewrite scan_order_shift. fold f.
  replace (length (backends lb))
    with ((length (backends lb) - (k + 1)) + (k + 1)) at 1 by lia.
  rewrite seq_app, fmap_app, filter_app, <- Hrest. f_equal.
  replace (k + 1 + (length (backends lb) - (k + 1))) with (length (backends lb))
    by lia.
  unfold f. rewrite scan_order_wrap. fold f.
  rewrite seq_app, fmap_app, filter_app, Hpre. simpl.
  by rewrite filter_cons, decide_True.
Qed.

End LiveRotation.

Section LiveShare.
Import LB.

Lemma succ_mod (i L : nat) :
  0 < L →
  S i mod L = if decide (i mod L + 1 < L) then i mod L + 1 else 0.
Proof.
  intros HL. pose proof (Nat.mod_upper_bound i L ltac:(lia)) as Hi.
  replace (S i) with (i + 1) by lia.
  rewrite <- Nat.Div0.add_mod_idemp_l. case_decide as Hd.
  - by apply Nat.mod_small.
  - replace (i mod L + 1) with L by lia. apply Nat.Div0.mod_same.
Qed.

Lemma rotate_lookup (x : nat) (rest : list nat) (i : nat) :
  (rest ++ [x]) !! (i mod S (length rest)) =
  (x :: rest) !! (S i mod S (length rest)).
Proof.
  rewrite (succ_mod i (S (length rest))) by lia.
  pose proof (Nat.mod_upper_bound i (S (length rest)) ltac:(lia)) as Hi.
  case_decide as Hd.
  - rewrite lookup_app_l by lia. by rewrite Nat.add_1_r.
  - replace (i mod S (length rest)) with (length rest) by lia.
    by rewrite list_lookup_middle.
Qed.

Lemma Next_n_walks_live_order (M : nat) (lb : LoadBalancer) (j : nat) :
  j < M → live_order lb ≠ [] →
  (Next_n M lb).1 !! j =
    Some (live_order lb !! (j mod length (live_order lb))).
Proof.
  revert lb j. induction M as [|M IH]; intros lb j Hj HW; [lia|].
  pose proof (Next_rotates lb) as Hrot.
  destruct (live_order lb) as [|idx rest] eqn:Hlive; [done|].
  destruct Hrot as (Hr & _ & Hnext). simpl.
  destruct (Next lb) as [r lb1]. simpl in Hr, Hnext. subst r.
  specialize (IH lb1). destruct (Next_n M lb1) as [rs lb2]. simpl in *.
  destruct j as [|j]; simpl.
  - by rewrite Nat.sub_diag.
  - rewrite IH by first [lia | rewrite Hnext; by destruct rest].
    rewrite Hnext, length_app. simpl. rewrite Nat.add_1_r.
    f_equal. apply rotate_lookup.
Qed.

Lemma live_order_elements (lb : LoadBalancer) :
  NoDup (live_order lb) ∧
  ∀ p, p ∈ live_order lb ↔ alive_at (backends lb) p = true.
Proof.
  unfold live_order, scan_order. split.
  - apply NoDup_filter, NoDup_fmap_2_strong; [|apply NoDup_seq].
    intros j1 j2 [_ H1]%elem_of_seq [_ H2]%elem_of_seq Heq.
    assert (length (backends lb) ≠ 0) as HN by lia.
    pose proof (Nat.div_mod (current lb + j1) (length (backends lb)) HN) as E1.
    pose proof (Nat.div_mod (current lb + j2) (length (backends lb)) HN) as E2.
    rewrite Heq in E1.
    generalize dependent ((current lb + j1) / length (backends lb)).
    generalize dependent ((current lb + j2) / length (backends lb)).
    generalize dependent ((current lb + j2) mod length (backends lb)).
    generalize dependent (length (backends lb)).
    intros N H1 H2 _ HN r q2 E2 q1 E1.
    destruct (Nat.lt_trichotomy q1 q2) as [Hq|[->|Hq]]; [nia|lia|nia].
  - intros p. rewrite list_elem_of_filter. split; [by intros [? _]|].
    intros Hp. split; [done|].
    assert (p < length (backends lb)) as Hlt.
    { unfold alive_at in Hp. destruct (backends lb !! p) eqn:Hb; [|done].
      by eapply lookup_lt_Some. }
    apply list_elem_of_fmap.
    exists ((p + length (backends lb) - current lb mod length (backends lb))
            mod length (backends lb)).
    split; [by rewrite offset_reaches|].
    apply elem_of_seq. split; [lia|]. simpl. apply Nat.mod_upper_bound. lia.
Qed.

Lemma times_selected_walk (W : list nat) (p pos : nat) (l : list nat) :
  NoDup W → W !! pos = Some p →
  times_selected p ((λ j, W !! (j mod length W)) <$> l) =
  length (filter (λ j, j mod length W = pos) l).
Proof.
  intros Hnd Hpos. unfold times_selected.
  induction l as [|j l IH]; [done|].
  rewrite fmap_cons, !filter_cons.
  case_decide as H1; case_decide as H2; cbn [length]; rewrite ?IH; try done.
  - exfalso. apply H2. by eapply NoDup_lookup.
  - exfalso. apply H1. by rewrite H2.
Qed.

(** X18.  Round robin among the live backends, whichever are dead: the
    live slots in scan order from the cursor form a list [W] without
    repetition; the [j]-th of [M] consecutive selections is the entry
    [j mod L] of [W], [L] its length; so over [M] calls every live backend
    is selected [M / L] or [M / L + 1] times and every dead one never. *)
Theorem live_backends_share_evenly (lb : LoadBalancer) (M : nat) :
  let W := live_order lb in
  let L := length W in
  let sels := (Next_n M lb).1 in
  NoDup W ∧
  (∀ p, p ∈ W ↔ alive_at (backends lb) p = true) ∧
  (∀ j, j < M → W ≠ [] → sels !! j = Some (W !! (j mod L))) ∧
  (∀ p, alive_at (backends lb) p = true →
     M / L ≤ times_selected p sels ≤ M / L + 1) ∧
  (∀ p, alive_at (backends lb) p = false → times_selected p sels = 0).
Proof.
  intros W L sels. destruct (live_order_elements lb) as [Hnd Hel].
  split; [done|]. split; [done|].
  split; [intros j Hj HW; by apply Next_n_walks_live_order|]. split.
  - intros p Hp. apply Hel in Hp as Hin.
    apply list_elem_of_lookup in Hin as [pos Hpos].
    assert (W ≠ []) as HW by (intros E; unfold W in E; by rewrite E in Hpos).
    assert (sels = (λ j, W !! (j mod L)) <$> seq 0 M) as ->.
    { apply list_eq. intros j. destruct (decide (j < M)) as [Hj|Hj].
      - unfold sels. rewrite Next_n_walks_live_order by done.
        by rewrite list_lookup_fmap, lookup_seq_lt.
      - rewrite (lookup_ge_None_2 sels) by (unfold sels; rewrite Next_n_length; lia).
        by rewrite list_lookup_fmap, lookup_seq_ge by lia. }
    rewrite (times_selected_walk W p pos) by done.
    apply (hits_bounds L pos 0 M). by eapply lookup_lt_Some.
  - intros p Hp. unfold times_selected.
    destruct (filter _ sels) as [|r rs] eqn:Hf; [done|].
    assert (r ∈ filter (λ r, r = Some p) sels) as Hin by (rewrite Hf; by left).
    apply list_elem_of_filter in Hin as [-> Hin].
    destruct (Next_n_results M lb) as (_ & Hsel & _).
    destruct (Hsel p Hin) as [_ Hlive]. congruence.
Qed.

End LiveShare.

Example one_dead_backend_is_skipped :
  let lb := {| backends := [mkBackend "a" true; mkBackend "b" false;
                            mkBackend "c" true];
               current := 1 |} in
  live_order lb = [2; 0] ∧
  (LB.Next_n 5 lb).1 = [Some 2; Some 0; Some 2; Some 0; Some 2].
Proof. by vm_compute. Qed.
